(** * tslearn.metrics: elastic similarity measures between time series

    A shallow embedding of [tslearn/metrics.py] together with the compiled
    engines it delegates to ([cydtw], [cylrdtw], [cygak]) and the sequence
    adapter of [tslearn.utils].  Python floats are idealised as real
    numbers; the value [+inf] used as a sentinel in the cost grids is an
    explicit constructor, and [nan] is [None] where it can arise. *)

From Stdlib Require Import Reals Lra Lia List ZArith Bool.
From stdpp Require Import base option list.
Import ListNotations.

Open Scope R_scope.

(** ** Numbers: reals extended with [+inf] *)

Inductive xreal : Type :=
| Fin (r : R)
| Inf.

Definition xadd (c : R) (x : xreal) : xreal :=
  match x with
  | Fin r => Fin (c + r)
  | Inf => Inf
  end.

Definition xmin (x y : xreal) : xreal :=
  match x, y with
  | Fin a, Fin b => Fin (Rmin a b)
  | Fin a, Inf => Fin a
  | Inf, _ => y
  end.

Definition xmin3 (x y z : xreal) : xreal := xmin x (xmin y z).

Definition xsqrt (x : xreal) : xreal :=
  match x with
  | Fin r => Fin (sqrt r)
  | Inf => Inf
  end.

(** [x <= y] on extended reals, as a boolean test. *)
Definition xleb (x y : xreal) : bool :=
  match x, y with
  | _, Inf => true
  | Inf, Fin _ => false
  | Fin a, Fin b => if Rle_dec a b then true else false
  end.

Definition is_fin (x : xreal) : Prop :=
  match x with Fin _ => True | Inf => False end.

(** ** Data model *)

(** A point is one feature vector, a series a sequence of points (a dense
    2-D array, length x features), a dataset a sequence of series (a 3-D
    array). *)
Definition point : Type := list R.
Definition series : Type := list point.
Definition dataset : Type := list series.

(** Raw input, before the adapter: a flat sequence of numbers stands for a
    univariate series. *)
Inductive raw_series : Type :=
| Raw1 (xs : list R)
| Raw2 (ps : list (list R)).

Definition raw_dataset : Type := list raw_series.

(** Modelled from the spec: [tslearn.utils.npy2d_time_series] is missing
    from the sources.  The adapter turns per-series input into a dense 2-D
    array (length x features); a flat sequence becomes a column of
    one-dimensional points. *)
Definition npy2d_time_series (s : raw_series) : series :=
  match s with
  | Raw1 xs => map (fun x => [x]) xs
  | Raw2 ps => ps
  end.

(** Modelled from the spec: [tslearn.utils.npy3d_time_series_dataset] is
    missing from the sources.  A dataset becomes a 3-D array
    (count x length x features), series by series. *)
Definition npy3d_time_series_dataset (d : raw_dataset) : dataset :=
  map npy2d_time_series d.

(** ** Dense matrices, read and written by index *)

Abbreviation matrix A := (list (list A)).

Definition mget {A} (dflt : A) (M : matrix A) (i j : nat) : A :=
  default dflt (M !! i ≫= (fun row => row !! j)).

Definition mset {A} (M : matrix A) (i j : nat) (v : A) : matrix A :=
  alter (fun row => <[j := v]> row) i M.

Definition mfull {A} (rows cols : nat) (v : A) : matrix A :=
  replicate rows (replicate cols v).

Definition shape_ok {A} (rows cols : nat) (M : matrix A) : Prop :=
  length M = rows /\ forall i row, M !! i = Some row -> length row = cols.

(** Squared Euclidean distance between two points of equal dimension. *)
Fixpoint sqdist (u v : point) : R :=
  match u, v with
  | a :: u', b :: v' => (a - b) * (a - b) + sqdist u' v'
  | _, _ => 0
  end.

(** ** Errors *)

(** The error taxonomy of the design, and the [ValueError] numpy raises. *)
Inductive error : Type :=
| ShapeError
| ParameterError
| NumericalError
| ValueError.

Inductive result (A : Type) : Type :=
| Ok (a : A)
| Err (e : error).

Arguments Ok {A} a.
Arguments Err {A} e.

(** ** Cross-similarity matrices *)

Section CrossSimilarity.

Context {A : Type}.
Variable blank : A.
Variable engine : series -> series -> A.
Variable diag : A.

(** Modelled from the spec: the batch loops of the compiled modules are
    missing from the sources.  Section 4.4: in self-similarity mode only
    the upper triangle is computed by the engine, the lower triangle
    mirrors it and the diagonal is set analytically; otherwise every cell
    is computed by the engine.  Cells are visited in row-major order. *)
Definition cdist_cell (dataset1 dataset2 : dataset) (self_similarity : bool)
  (M : matrix A) (i j : nat) : matrix A :=
  if self_similarity && (j <? i)%nat then mset M i j (mget blank M j i)
  else if self_similarity && (i =? j)%nat then mset M i j diag
  else mset M i j (engine (nth i dataset1 []) (nth j dataset2 [])).

Definition cdist (dataset1 dataset2 : dataset) (self_similarity : bool)
  : matrix A :=
  fold_left
    (fun M i =>
       fold_left (fun M j => cdist_cell dataset1 dataset2 self_similarity M i j)
         (seq 0 (length dataset2)) M)
    (seq 0 (length dataset1))
    (mfull (length dataset1) (length dataset2) blank).

End CrossSimilarity.

(** ** The DTW engine *)

Inductive move : Type := Diag | Up | Left.

Module cydtw.

(** Modelled from the spec: the compiled module [cydtw] is missing from
    the sources.  Section 4.1: build the cost grid [D] with
    [D[0][0] = 0] and an infinite first row and column; for [i] in
    [1..n], [j] in [1..m], [D[i][j]] is the squared Euclidean local cost
    plus the minimum of the three predecessors. *)
Definition init_grid (n m : nat) : matrix xreal :=
  mset (mfull (S n) (S m) Inf) 0 0 (Fin 0).

Definition local_cost (s1 s2 : series) (i j : nat) : R :=
  sqdist (nth i s1 []) (nth j s2 []).

(** One iteration of the inner loop: fills cell [(i+1, j+1)]. *)
Definition fill_cell (s1 s2 : series) (D : matrix xreal) (i j : nat)
  : matrix xreal :=
  mset D (S i) (S j)
    (xadd (local_cost s1 s2 i j)
       (xmin3 (mget Inf D i (S j)) (mget Inf D (S i) j) (mget Inf D i j))).

Definition fill_row (s1 s2 : series) (D : matrix xreal) (i : nat)
  : matrix xreal :=
  fold_left (fun D j => fill_cell s1 s2 D i j) (seq 0 (length s2)) D.

Definition cost_grid (s1 s2 : series) : matrix xreal :=
  fold_left (fill_row s1 s2) (seq 0 (length s1))
    (init_grid (length s1) (length s2)).

(** The score of the simple interface: [sqrt(D[n][m])]. *)
Definition dtw (s1 s2 : series) : xreal :=
  xsqrt (mget Inf (cost_grid s1 s2) (length s1) (length s2)).

(** Modelled from the spec: path reconstruction of section 4.1.  The
    predecessor that produced the minimum is chosen, ties broken
    diagonal > up > left. *)
Definition best_pred (dg up lf : xreal) : move :=
  if xleb dg up && xleb dg lf then Diag
  else if xleb up lf then Up
  else Left.

(** Backtrace from grid cell [(i, j)] towards [(0, 0)].  Every visited
    cell is emitted shifted by -1 and pushed in front of what was
    emitted before, which yields the path in forward order.  [None]
    when the walk leaves the grid or the fuel runs out. *)
Fixpoint backtrace (D : matrix xreal) (fuel i j : nat)
         (acc : list (nat * nat)) : option (list (nat * nat)) :=
  match fuel with
  | O => None
  | S fuel' =>
      match i, j with
      | O, O => Some acc
      | S i', S j' =>
          let acc' := (i', j') :: acc in
          match best_pred (mget Inf D i' j') (mget Inf D i' j)
                  (mget Inf D i j') with
          | Diag => backtrace D fuel' i' j' acc'
          | Up => backtrace D fuel' i' j acc'
          | Left => backtrace D fuel' i j' acc'
          end
      | _, _ => None
      end
  end.

Definition dtw_path (s1 s2 : series)
  : option (list (nat * nat) * xreal) :=
  let n := length s1 in
  let m := length s2 in
  let D := cost_grid s1 s2 in
  match backtrace D (S (n + m)) n m [] with
  | Some path => Some (path, xsqrt (mget Inf D n m))
  | None => None
  end.

(** Pairwise DTW over two datasets; the diagonal of a self-comparison is
    set to 0. *)
Definition cdist_dtw (dataset1 dataset2 : dataset) (self_similarity : bool)
  : matrix xreal :=
  cdist Inf dtw (Fin 0) dataset1 dataset2 self_similarity.

End cydtw.

(** The recurrence the grid is meant to satisfy, as a function of the
    cell. *)
Fixpoint Dval (s1 s2 : series) (i : nat) : nat -> xreal :=
  match i with
  | O => fun j => match j with O => Fin 0 | S _ => Inf end
  | S i' =>
      fix row (j : nat) : xreal :=
        match j with
        | O => Inf
        | S j' =>
            xadd (cydtw.local_cost s1 s2 i' j')
              (xmin3 (Dval s1 s2 i' (S j')) (row j') (Dval s1 s2 i' j'))
        end
  end.

(** ** The GAK engine *)

(** A value kept as its logarithm; [NegInf] is the logarithm of 0. *)
Inductive lreal : Type :=
| NegInf
| Log (r : R).

Definition lexp (x : lreal) : R :=
  match x with
  | NegInf => 0
  | Log r => exp r
  end.

Definition ladd (c : R) (x : lreal) : lreal :=
  match x with
  | NegInf => NegInf
  | Log r => Log (c + r)
  end.

(** Log-sum-exp of two terms, shifted by the larger one. *)
Definition logsumexp (x y : lreal) : lreal :=
  match x, y with
  | NegInf, _ => y
  | _, NegInf => x
  | Log a, Log b =>
      let top := Rmax a b in
      Log (top + ln (exp (a - top) + exp (b - top)))
  end.

Definition logsumexp3 (x y z : lreal) : lreal :=
  logsumexp x (logsumexp y z).

Module cygak.

(** Modelled from the spec: the compiled module [cygak] is missing from
    the sources.  Section 4.3: the local kernel is the Gaussian divided by
    two minus itself; the grid has [K[0][0] = 1], zeros on the rest of the
    first row and column, and every other cell is the sum of its three
    predecessors times the local kernel,
    [K[i][j] = (K[i-1][j] + K[i][j-1] + K[i-1][j-1]) * kappa].  The
    recursion runs on logarithms and is exponentiated only at the end.

    The weight of a cell is the local kernel itself: the examples in the
    docstrings of [gak] and [cdist_gak] in [metrics.py] (0.839..., 0.273...
    and 0.656...) are the values of this recurrence, and a further division
    of every cell by three, as written in section 4.3, gives 0.767...,
    0.180... and 0.649... instead. *)
Definition gauss (sigma : R) (x y : point) : R :=
  exp (- sqdist x y / (2 * (sigma * sigma))).

Definition local_kernel (sigma : R) (x y : point) : R :=
  gauss sigma x y / (2 - gauss sigma x y).

Definition log_local_kernel (sigma : R) (x y : point) : R :=
  - sqdist x y / (2 * (sigma * sigma)) - ln (2 - gauss sigma x y).

Definition init_grid (n m : nat) : matrix lreal :=
  mset (mfull (S n) (S m) NegInf) 0 0 (Log 0).

Definition fill_cell (sigma : R) (s1 s2 : series) (L : matrix lreal)
  (i j : nat) : matrix lreal :=
  mset L (S i) (S j)
    (ladd (log_local_kernel sigma (nth i s1 []) (nth j s2 []))
       (logsumexp3 (mget NegInf L i (S j)) (mget NegInf L (S i) j)
          (mget NegInf L i j))).

Definition fill_row (sigma : R) (s1 s2 : series) (L : matrix lreal) (i : nat)
  : matrix lreal :=
  fold_left (fun L j => fill_cell sigma s1 s2 L i j) (seq 0 (length s2)) L.

Definition log_grid (sigma : R) (s1 s2 : series) : matrix lreal :=
  fold_left (fill_row sigma s1 s2) (seq 0 (length s1))
    (init_grid (length s1) (length s2)).

(** Raw kernel value [K[n][m]]. *)
Definition gak (s1 s2 : series) (sigma : R) : R :=
  lexp (mget NegInf (log_grid sigma s1 s2) (length s1) (length s2)).

(** Normalisation: [K(s1,s2) / sqrt(K(s1,s1) * K(s2,s2))]. *)
Definition normalized (s1 s2 : series) (sigma : R) : R :=
  gak s1 s2 sigma / sqrt (gak s1 s1 sigma * gak s2 s2 sigma).

(** A bandwidth [sigma <= 0] is rejected before any grid is built. *)
Definition normalized_gak (s1 s2 : series) (sigma : R) : result R :=
  if Rle_dec sigma 0 then Err ParameterError
  else Ok (normalized s1 s2 sigma).

(** Pairwise normalised GAK over two datasets; the diagonal of a
    self-comparison is set to 1. *)
Definition cdist_gak (dataset1 dataset2 : dataset) (sigma : R)
  (self_similarity : bool) : result (matrix R) :=
  if Rle_dec sigma 0 then Err ParameterError
  else Ok (cdist 0 (fun s1 s2 => normalized s1 s2 sigma) 1
             dataset1 dataset2 self_similarity).

End cygak.

(** The linear-domain recurrence of the kernel grid. *)
Fixpoint Kval (sigma : R) (s1 s2 : series) (i : nat) : nat -> R :=
  match i with
  | O => fun j => match j with O => 1 | S _ => 0 end
  | S i' =>
      fix row (j : nat) : R :=
        match j with
        | O => 0
        | S j' =>
            (Kval sigma s1 s2 i' (S j') + row j' + Kval sigma s1 s2 i' j')
            * cygak.local_kernel sigma (nth i' s1 []) (nth j' s2 [])
        end
  end.

(** ** Alignment paths *)

(** One step of an alignment path advances [i], [j] or both by exactly
    one. *)
Definition path_step (p q : nat * nat) : Prop :=
  q = (S (fst p), snd p) \/ q = (fst p, S (snd p)) \/
  q = (S (fst p), S (snd p)).

Fixpoint contiguous (path : list (nat * nat)) : Prop :=
  match path with
  | p :: (q :: _) as rest => path_step p q /\ contiguous rest
  | _ => True
  end.

(** ** The wrappers of [tslearn/metrics.py] *)

Definition dtw_path (s1 s2 : raw_series) : option (list (nat * nat) * xreal) :=
  let s1 := npy2d_time_series s1 in
  let s2 := npy2d_time_series s2 in
  cydtw.dtw_path s1 s2.

Definition dtw (s1 s2 : raw_series) : xreal :=
  let s1 := npy2d_time_series s1 in
  let s2 := npy2d_time_series s2 in
  cydtw.dtw s1 s2.

(** The batch wrappers only prepare the arguments of the compiled batch
    engines, so in [metrics.cdist_dtw] and [metrics.cdist_gak] the engine is
    a parameter: what the wrapper hands over, the [self_similarity] flag
    included, can be read off for any engine. *)
Module metrics.

Section BatchWrappers.

Context {dist_matrix kernel_matrix : Type}.
Variable cydtw_cdist_dtw : dataset -> dataset -> bool -> dist_matrix.
Variable cygak_cdist_gak : dataset -> dataset -> R -> bool -> kernel_matrix.

Definition cdist_dtw (dataset1 : raw_dataset) (dataset2 : option raw_dataset)
  : dist_matrix :=
  let dataset1 := npy3d_time_series_dataset dataset1 in
  let '(dataset2, self_similarity) :=
    match dataset2 with
    | None => (dataset1, true)
    | Some dataset2 => (npy3d_time_series_dataset dataset2, false)
    end in
  cydtw_cdist_dtw dataset1 dataset2 self_similarity.

Definition cdist_gak (dataset1 : raw_dataset) (dataset2 : option raw_dataset)
  (sigma : R) : kernel_matrix :=
  let dataset1 := npy3d_time_series_dataset dataset1 in
  let '(dataset2, self_similarity) :=
    match dataset2 with
    | None => (dataset1, true)
    | Some dataset2 => (npy3d_time_series_dataset dataset2, false)
    end in
  cygak_cdist_gak dataset1 dataset2 sigma self_similarity.

End BatchWrappers.

End metrics.

(** [cdist_dtw] over the batch engine of [cydtw]. *)
Definition cdist_dtw (dataset1 : raw_dataset) (dataset2 : option raw_dataset)
  : matrix xreal :=
  metrics.cdist_dtw cydtw.cdist_dtw dataset1 dataset2.

Definition gak (s1 s2 : raw_series) (sigma : R) : result R :=
  let s1 := npy2d_time_series s1 in
  let s2 := npy2d_time_series s2 in
  cygak.normalized_gak s1 s2 sigma.

(** [cdist_gak] over the batch engine of [cygak]. *)
Definition cdist_gak (dataset1 : raw_dataset) (dataset2 : option raw_dataset)
  (sigma : R) : result (matrix R) :=
  metrics.cdist_gak cygak.cdist_gak dataset1 dataset2 sigma.

(** *** LR-DTW *)

Section LRDTW.

(** The compiled module [cylrdtw] is missing from the sources and the
    wrappers only pass its results on, so its two entry points are
    parameters: [cylrdtw.lr_dtw] returns a score and a probability grid,
    [cylrdtw.lr_dtw_backtrace] turns the grid into a path.  [None] stands
    for a raised exception. *)
Context {proba_grid soft_path : Type}.
Variable cylrdtw_lr_dtw : series -> series -> R -> option (R * proba_grid).
Variable cylrdtw_lr_dtw_backtrace : proba_grid -> option soft_path.

Definition lr_dtw (s1 s2 : raw_series) (gamma : R) : option R :=
  let s1 := npy2d_time_series s1 in
  let s2 := npy2d_time_series s2 in
  r ← cylrdtw_lr_dtw s1 s2 gamma; Some (fst r).

Definition lr_dtw_path (s1 s2 : raw_series) (gamma : R)
  : option (soft_path * R) :=
  let s1 := npy2d_time_series s1 in
  let s2 := npy2d_time_series s2 in
  r ← cylrdtw_lr_dtw s1 s2 gamma;
  let '(sim, probas) := r in
  path ← cylrdtw_lr_dtw_backtrace probas;
  Some (path, sim).

End LRDTW.

(** *** Bandwidth estimation *)

(** Shape of a 3-D array. *)
Definition shape (d : dataset) : nat * nat * nat :=
  (length d, length (nth 0 d []), length (nth 0 (nth 0 d []) [])).

(** A dataset is a dense 3-D array when all series have the same length
    and all points the same dimension. *)
Definition rectangular (d : dataset) : Prop :=
  Forall (fun s => length s = length (nth 0 d []) /\
                   Forall (fun p => length p = length (nth 0 (nth 0 d []) [])) s)
    d.

(** [dataset.reshape((-1, d))]: the points of all series, one after the
    other. *)
Definition reshape_points (d : dataset) : list point := concat d.

(** [points[sample_indices]] *)
Definition take_rows (points : list point) (indices : list nat) : list point :=
  map (fun k => nth k points []) indices.

(** [scipy.spatial.distance.pdist] with the Euclidean metric: the distances
    of all pairs [i < j], row by row. *)
Fixpoint pdist (points : list point) : list R :=
  match points with
  | [] => []
  | p :: rest => map (fun q => sqrt (sqdist p q)) rest ++ pdist rest
  end.

Fixpoint insert_sorted (x : R) (l : list R) : list R :=
  match l with
  | [] => [x]
  | y :: l' => if Rle_dec x y then x :: l else y :: insert_sorted x l'
  end.

Definition sort (l : list R) : list R := fold_right insert_sorted [] l.

(** [numpy.median]: the middle of the sorted values, the mean of the two
    middle ones for an even count, and [nan] ([None]) for no value. *)
Definition median (l : list R) : option R :=
  let s := sort l in
  let n := length s in
  if (n =? 0)%nat then None
  else if Nat.even n
       then Some ((nth (n / 2 - 1) s 0 + nth (n / 2) s 0) / 2)
       else Some (nth (n / 2) s 0).

(** A float times a float; [nan] is absorbing. *)
Definition fmul (x : option R) (y : R) : option R :=
  match x with
  | Some r => Some (r * y)
  | None => None
  end.

Section BandwidthEstimator.

(** The process-wide generator [numpy.random]: [choice a size replace]
    reads the generator's state and leaves a new one. *)
Context {rng : Type}.
Variable choice : nat -> Z -> bool -> rng -> result (list nat) * rng.

Definition sigma_gak (dataset : raw_dataset) (n_samples : Z) (g : rng)
  : result (option R) * rng :=
  let dataset := npy3d_time_series_dataset dataset in
  let '(n_ts, sz, d) := shape dataset in
  let replace :=
    if (Z.of_nat (n_ts * sz) <? n_samples)%Z then true else false in
  match choice (n_ts * sz) n_samples replace g with
  | (Err e, g') => (Err e, g')
  | (Ok sample_indices, g') =>
      let dists := pdist (take_rows (reshape_points dataset) sample_indices) in
      (Ok (fmul (median dists) (sqrt (INR sz))), g')
  end.

End BandwidthEstimator.

(** The same pairwise distances, written by index: all pairs [i < j]. *)
Definition pair_dists (points : list point) : list R :=
  flat_map
    (fun i =>
       map (fun j => sqrt (sqdist (nth i points []) (nth j points [])))
         (seq (S i) (length points - S i)))
    (seq 0 (length points)).

(** *** A stand-in for the process-wide generator

    A linear congruential generator with numpy's checks on the arguments
    of [choice]: a negative size, an empty population with a non-empty
    sample, and a sample without replacement larger than the population
    raise [ValueError]. *)
Module stand_in.

Definition next (g : Z) : Z := ((1103515245 * g + 12345) mod 2147483648)%Z.

Fixpoint draw_with_replacement (a size : nat) (g : Z) : list nat * Z :=
  match size with
  | O => ([], g)
  | S size' =>
      let g1 := next g in
      let '(rest, g2) := draw_with_replacement a size' g1 in
      (Z.to_nat (g1 mod Z.of_nat a) :: rest, g2)
  end.

Definition draw_without_replacement (a size : nat) (g : Z) : list nat * Z :=
  let g1 := next g in
  let start := Z.to_nat (g1 mod Z.of_nat a) in
  (map (fun k => ((start + k) mod a)%nat) (seq 0 size), g1).

Definition choice (a : nat) (size : Z) (replace : bool) (g : Z)
  : result (list nat) * Z :=
  if (size <? 0)%Z then (Err ValueError, g)
  else if (a =? 0)%nat && (0 <? size)%Z then (Err ValueError, g)
  else if negb replace && (Z.of_nat a <? size)%Z then (Err ValueError, g)
  else if (size =? 0)%Z then (Ok [], g)
  else
    let '(indices, g') :=
      if replace then draw_with_replacement a (Z.to_nat size) g
      else draw_without_replacement a (Z.to_nat size) g in
    (Ok indices, g').

End stand_in.

(** What [numpy.random.choice] promises when its arguments are valid: a
    sample of the requested size, drawn from [0 .. a-1]. *)
Definition sampler_contract {rng : Type}
  (choice : nat -> Z -> bool -> rng -> result (list nat) * rng) : Prop :=
  forall a size replace g,
    (0 < a)%nat -> (0 <= size)%Z ->
    (replace = true \/ (size <= Z.of_nat a)%Z) ->
    exists indices g',
      choice a size replace g = (Ok indices, g') /\
      length indices = Z.to_nat size /\
      Forall (fun k => (k < a)%nat) indices.

(** What a cell of the cross-similarity matrix should hold. *)
Definition cdist_val {A} (engine : series -> series -> A) (diag : A)
  (dataset1 dataset2 : dataset) (self_similarity : bool) (i j : nat) : A :=
  if self_similarity then
    if (i =? j)%nat then diag
    else if (j <? i)%nat then engine (nth j dataset1 []) (nth i dataset2 [])
         else engine (nth i dataset1 []) (nth j dataset2 [])
  else engine (nth i dataset1 []) (nth j dataset2 []).

(** ** Positive definite kernels

    The notions used to bound the normalised kernel. *)

(** Finite sums over a list. *)
Fixpoint lsum {A} (F : A -> R) (l : list A) : R :=
  match l with
  | [] => 0
  | a :: l' => F a + lsum F l'
  end.

(** The bilinear form of a kernel on two weighted point lists. *)
Definition bilin {X} (k : X -> X -> R) (l1 l2 : list (R * X)) : R :=
  lsum (fun p => lsum (fun q => fst p * fst q * k (snd p) (snd q)) l2) l1.

(** Positive definiteness on the points that satisfy [P]. *)
Definition PD {X} (P : X -> Prop) (k : X -> X -> R) : Prop :=
  forall l : list (R * X), Forall (fun p => P (snd p)) l -> 0 <= bilin k l l.

(** A kernel whose pointwise product with any positive definite kernel,
    along any map into its domain, is positive definite again. *)
Definition Schur {X} (P : X -> Prop) (k : X -> X -> R) : Prop :=
  forall (Y : Type) (Q : Y -> Prop) (f : Y -> X) (M : Y -> Y -> R),
    (forall y, Q y -> P (f y)) -> PD Q M ->
    PD Q (fun y y' => k (f y) (f y') * M y y').

(** Inner product of two points. *)
Fixpoint dot (u v : point) : R :=
  match u, v with
  | a :: u', b :: v' => a * b + dot u' v'
  | _, _ => 0
  end.

(** Points of feature dimension [d]. *)
Definition dim (d : nat) (u : point) : Prop := length u = d.

(** The kernel [kappa / (1 + kappa)] of the local kernel [kappa]: half the
    Gaussian. *)
Definition chi (sigma : R) (u v : point) : R :=
  cygak.gauss sigma u v / 2.

(** Indicators of the empty and of the non-empty series. *)
Definition empty_ind (s : series) : R :=
  match s with [] => 1 | _ :: _ => 0 end.

Definition nonempty_ind (s : series) : R :=
  match s with [] => 0 | _ :: _ => 1 end.

(** Alignments of two series stretched to a common length [p]: pairs of
    stretchings that put the last points of both series at time [p]. *)
Fixpoint stretch_sum (sigma : R) (p : nat) (x y : series) : R :=
  match p with
  | O => empty_ind x * empty_ind y
  | S p' =>
      (nonempty_ind x * nonempty_ind y)
      * (chi sigma (List.last x []) (List.last y [])
         * (stretch_sum sigma p' x y
            + stretch_sum sigma p' (removelast x) y
            + stretch_sum sigma p' x (removelast y)
            + stretch_sum sigma p' (removelast x) (removelast y)))
  end.

(** Series whose points all have feature dimension [d]. *)
Definition dseries (d : nat) (s : series) : Prop := Forall (dim d) s.

(** The raw kernel as a function of the two series. *)
Definition Kfun (sigma : R) (x y : series) : R :=
  Kval sigma x y (length x) (length y).

(** ** Loop invariants *)

(** Loop invariant of the two nested loops of the DTW grid: rows up to [r]
    are final, row [r+1] is final up to column [c], and column 0 is final
    everywhere. *)
Definition grid_inv (s1 s2 : series) (D : matrix xreal) (r c : nat) : Prop :=
  shape_ok (S (length s1)) (S (length s2)) D /\
  forall a b, (a <= length s1)%nat -> (b <= length s2)%nat ->
    ((a <= r)%nat \/ (a = S r /\ (b <= c)%nat) \/ b = O) ->
    mget Inf D a b = Dval s1 s2 a b.

(** Loop invariant of the kernel recursion: the logarithms stored so far
    exponentiate to the linear-domain recurrence. *)
Definition log_grid_inv (sigma : R) (s1 s2 : series) (L : matrix lreal)
  (r c : nat) : Prop :=
  shape_ok (S (length s1)) (S (length s2)) L /\
  forall a b, (a <= length s1)%nat -> (b <= length s2)%nat ->
    ((a <= r)%nat \/ (a = S r /\ (b <= c)%nat) \/ b = O) ->
    lexp (mget NegInf L a b) = Kval sigma s1 s2 a b.

(** Loop invariant of the batch loops: every cell visited so far holds its
    final value. *)
Definition cdist_inv {A} (blank : A) (engine : series -> series -> A)
  (diag : A) (dataset1 dataset2 : dataset) (self_similarity : bool)
  (M : matrix A) (r c : nat) : Prop :=
  shape_ok (length dataset1) (length dataset2) M /\
  forall a b, (a < length dataset1)%nat -> (b < length dataset2)%nat ->
    ((a < r)%nat \/ (a = r /\ (b < c)%nat)) ->
    mget blank M a b =
    cdist_val engine diag dataset1 dataset2 self_similarity a b.

(** ** Notions used by the further properties *)

(** [x <= y] on extended reals. *)
Definition xle (x y : xreal) : Prop :=
  match x, y with
  | _, Inf => True
  | Inf, Fin _ => False
  | Fin a, Fin b => a <= b
  end.

(** Accumulated squared cost of an alignment path. *)
Definition path_cost (s1 s2 : series) (path : list (nat * nat)) : R :=
  fold_right (fun c acc => cydtw.local_cost s1 s2 (fst c) (snd c) + acc) 0 path.

(** The value of [gak], 0 standing for a rejected call. *)
Definition gak_value (s1 s2 : raw_series) (sigma : R) : R :=
  match gak s1 s2 sigma with
  | Ok v => v
  | Err _ => 0
  end.

(** Squared Euclidean distance between two series, point by point. *)
Fixpoint euclid_sq (s1 s2 : series) : R :=
  match s1, s2 with
  | p :: a, q :: b => sqdist p q + euclid_sq a b
  | _, _ => 0
  end.

(** The path that pairs the points of two series index by index. *)
Definition diagonal_path (n : nat) : list (nat * nat) :=
  map (fun i => (i, i)) (seq 0 n).

(** ** Numerical bounds for the documented examples *)

(** Fixed-point numbers with fifteen decimals. *)
Definition scale : Z := 1000000000000000.

Definition fx (a : Z) : R := IZR a / IZR scale.

(** Products rounded down and up. *)
Definition mul_down (a b : Z) : Z := (a * b / scale)%Z.

Definition mul_up (a b : Z) : Z := (a * b / scale + 1)%Z.

Definition sq_down (a : Z) : Z := mul_down a a.

Definition sq_up (a : Z) : Z := mul_up a a.

(** A fixed-point number below, and one above, a non-negative real. *)
Definition below (a : Z) (x : R) : Prop := (0 <= a)%Z /\ fx a <= x.

Definition above (a : Z) (x : R) : Prop := 0 <= x <= fx a.

(** The local kernel as a function of the Gaussian. *)
Definition kappa (g : R) : R := g / (2 - g).

(** The kernel grid over an arbitrary table of cell weights. *)
Fixpoint Kgrid (w : nat -> nat -> R) (i : nat) : nat -> R :=
  match i with
  | O => fun j => match j with O => 1 | S _ => 0 end
  | S i' =>
      fix row (j : nat) : R :=
        match j with
        | O => 0
        | S j' => (Kgrid w i' (S j') + row j' + Kgrid w i' j') * w i' j'
        end
  end.

(** The same grid in fixed point, row by row: the cells of a row from
    column [j + 1] on, given the row before from column [j] on and the cell
    to the left. *)
Fixpoint fx_fill (mul : Z -> Z -> Z) (w : nat -> Z) (j : nat)
  (before : list Z) (left : Z) : list Z :=
  match before with
  | diag :: ((up :: _) as rest) =>
      let cell := mul (up + left + diag)%Z (w j) in
      cell :: fx_fill mul w (S j) rest cell
  | _ => []
  end.

Fixpoint fx_rows (mul : Z -> Z -> Z) (w : nat -> nat -> Z) (m i : nat)
  : list Z :=
  match i with
  | O => scale :: repeat 0%Z m
  | S i' => 0%Z :: fx_fill mul (w i') 0 (fx_rows mul w m i') 0%Z
  end.

Definition fx_grid (mul : Z -> Z -> Z) (w : nat -> nat -> Z) (n m : nat) : Z :=
  nth m (fx_rows mul w m n) 0%Z.

(** Squared difference of two integer values. *)
Definition sqdiff (a b : Z) : nat := Z.to_nat ((a - b) * (a - b)).

(** Series of integer values, one feature. *)
Definition scalar_series (x : list Z) : series := map (fun v => [IZR v]) x.

(** Nine-decimal bounds of [kappa (exp (- k / 8))] for the exponents met in
    the examples, the trivial bounds elsewhere. *)
Definition kappa_lo (k : nat) : Z :=
  if (k =? 0)%nat then scale
  else if (k =? 1)%nat then 789704191000000
  else if (k =? 4)%nat then 435266562000000
  else if (k =? 9)%nat then 193782132000000
  else if (k =? 16)%nat then 72578865000000
  else if (k =? 36)%nat then 5585520000000
  else 0.

Definition kappa_hi (k : nat) : Z :=
  if (k =? 0)%nat then scale
  else if (k =? 1)%nat then 789704224000000
  else if (k =? 4)%nat then 435266620000000
  else if (k =? 9)%nat then 193782180000000
  else if (k =? 16)%nat then 72578894000000
  else if (k =? 36)%nat then 5585525000000
  else scale.

(** The weight tables of two integer series: bounds of the local kernel at
    a bandwidth [sigma] with [2 * sigma^2 * c = 8]. *)
Definition weights (t : nat -> Z) (c : nat) (x y : list Z) (i j : nat) : Z :=
  t (c * sqdiff (nth i x 0%Z) (nth j y 0%Z))%nat.

(** Whether the fixed-point grids place the normalised kernel of two
    integer series strictly between [lo] and [hi]: the comparison of
    [K(x,y) / sqrt (K(x,x) * K(y,y))] with a bound, squared. *)
Definition between_check (c : nat) (x y : list Z) (lo hi : Z) : bool :=
  let L t u :=
    fx_grid mul_down (weights kappa_lo c t u) (length t) (length u) in
  let H t u :=
    fx_grid mul_up (weights kappa_hi c t u) (length t) (length u) in
  ((0 <=? lo) && (0 <? hi)
   && (lo * lo * (H x x * H y y) <? L x y * L x y * (scale * scale))
   && (H x y * H x y * (scale * scale) <? hi * hi * (L x x * L y y)))%Z.

(** * Properties *)

(** ** Matrices *)

Lemma mget_mset_eq {A} (d : A) M i j v rows cols :
  shape_ok rows cols M -> (i < rows)%nat -> (j < cols)%nat ->
  mget d (mset M i j v) i j = v.
Proof.
  intros [Hl Hr] Hi Hj. unfold mget, mset.
  rewrite list_lookup_alter_eq.
  destruct (lookup_lt_is_Some_2 M i) as [row Hrow]; [lia|].
  rewrite Hrow. simpl.
  rewrite list_lookup_insert_eq; [reflexivity|].
  rewrite (Hr _ _ Hrow). exact Hj.
Qed.

Lemma mget_mset_ne {A} (d : A) M i j i' j' v :
  (i, j) <> (i', j') ->
  mget d (mset M i j v) i' j' = mget d M i' j'.
Proof.
  intros Hne. unfold mget, mset.
  destruct (decide (i = i')) as [->|Hi].
  - rewrite list_lookup_alter_eq.
    destruct (M !! i') as [row|]; simpl; [|reflexivity].
    rewrite list_lookup_insert_ne; [reflexivity|congruence].
  - rewrite list_lookup_alter_ne by exact Hi. reflexivity.
Qed.

Lemma shape_ok_mset {A} (M : matrix A) rows cols i j v :
  shape_ok rows cols M -> shape_ok rows cols (mset M i j v).
Proof.
  intros [Hl Hr]. split.
  - unfold mset. rewrite length_alter. exact Hl.
  - intros k row. unfold mset.
    destruct (decide (i = k)) as [->|Hk].
    + rewrite list_lookup_alter_eq.
      destruct (M !! k) as [r|] eqn:E; simpl; [|discriminate].
      intros [= <-]. rewrite length_insert. eauto.
    + rewrite list_lookup_alter_ne by exact Hk. eauto.
Qed.

Lemma shape_ok_mfull {A} rows cols (v : A) :
  shape_ok rows cols (mfull rows cols v).
Proof.
  split.
  - unfold mfull. apply length_replicate.
  - intros i row H. unfold mfull in H.
    apply lookup_replicate in H as [-> _]. apply length_replicate.
Qed.

Lemma mget_mfull {A} (d : A) rows cols v i j :
  (i < rows)%nat -> (j < cols)%nat -> mget d (mfull rows cols v) i j = v.
Proof.
  intros Hi Hj. unfold mget, mfull.
  rewrite lookup_replicate_2 by exact Hi. simpl.
  rewrite lookup_replicate_2 by exact Hj. reflexivity.
Qed.

(** ** The DTW cost grid *)

Lemma Dval_0_0 s1 s2 : Dval s1 s2 0 0 = Fin 0.
Proof. reflexivity. Qed.

Lemma Dval_0_S s1 s2 j : Dval s1 s2 0 (S j) = Inf.
Proof. reflexivity. Qed.

Lemma Dval_S_0 s1 s2 i : Dval s1 s2 (S i) 0 = Inf.
Proof. reflexivity. Qed.

Lemma Dval_S_S s1 s2 i j :
  Dval s1 s2 (S i) (S j) =
  xadd (cydtw.local_cost s1 s2 i j)
    (xmin3 (Dval s1 s2 i (S j)) (Dval s1 s2 (S i) j) (Dval s1 s2 i j)).
Proof. reflexivity. Qed.

Lemma grid_inv_init s1 s2 :
  grid_inv s1 s2 (cydtw.init_grid (length s1) (length s2)) 0 0.
Proof.
  split.
  - apply shape_ok_mset, shape_ok_mfull.
  - intros a b Ha Hb Hc. unfold cydtw.init_grid.
    destruct (decide ((0, 0)%nat = (a, b))) as [E|E].
    + injection E as <- <-.
      erewrite mget_mset_eq; [reflexivity|apply shape_ok_mfull|lia|lia].
    + rewrite mget_mset_ne by exact E.
      rewrite mget_mfull by lia.
      destruct a as [|a], b as [|b]; try reflexivity; try congruence.
      exfalso. destruct Hc as [Hc|[[_ Hc]|Hc]]; lia.
Qed.

Lemma grid_inv_fill_cell s1 s2 D i j :
  (i < length s1)%nat -> (j < length s2)%nat ->
  grid_inv s1 s2 D i j ->
  grid_inv s1 s2 (cydtw.fill_cell s1 s2 D i j) i (S j).
Proof.
  intros Hi Hj [Hs Hv]. split.
  - apply shape_ok_mset, Hs.
  - intros a b Ha Hb Hc. unfold cydtw.fill_cell.
    destruct (decide ((S i, S j) = (a, b))) as [E|E].
    + injection E as <- <-.
      erewrite mget_mset_eq; [|exact Hs|lia|lia].
      rewrite Dval_S_S, !Hv by lia. reflexivity.
    + rewrite mget_mset_ne by exact E.
      apply Hv; [lia|lia|].
      destruct Hc as [Hc|[[Hc1 Hc2]|Hc]]; [lia| |lia].
      right; left. split; [exact Hc1|].
      assert (b <> S j) by congruence. lia.
Qed.

Lemma grid_inv_fill_cols s1 s2 D i c :
  (i < length s1)%nat -> (c <= length s2)%nat ->
  grid_inv s1 s2 D i 0 ->
  grid_inv s1 s2
    (fold_left (fun D j => cydtw.fill_cell s1 s2 D i j) (seq 0 c) D) i c.
Proof.
  intros Hi Hc H0. induction c as [|c IH].
  - exact H0.
  - rewrite seq_S, fold_left_app. simpl.
    apply grid_inv_fill_cell; [lia|lia|]. apply IH. lia.
Qed.

Lemma grid_inv_next_row s1 s2 D i :
  grid_inv s1 s2 D i (length s2) -> grid_inv s1 s2 D (S i) 0.
Proof.
  intros [Hs Hv]. split; [exact Hs|].
  intros a b Ha Hb Hc. apply Hv; [lia|lia|].
  destruct Hc as [Hc|[[Hc1 Hc2]|Hc]]; lia.
Qed.

Lemma grid_inv_fill_rows s1 s2 r :
  (r <= length s1)%nat ->
  grid_inv s1 s2
    (fold_left (cydtw.fill_row s1 s2) (seq 0 r)
       (cydtw.init_grid (length s1) (length s2))) r 0.
Proof.
  intros Hr. induction r as [|r IH].
  - apply grid_inv_init.
  - rewrite seq_S, fold_left_app. simpl.
    apply grid_inv_next_row. unfold cydtw.fill_row at 1.
    apply grid_inv_fill_cols; [lia|lia|]. apply IH. lia.
Qed.

(** The grid built by the loops holds the recurrence's value in every
    cell. *)
Lemma cost_grid_Dval s1 s2 i j :
  (i <= length s1)%nat -> (j <= length s2)%nat ->
  mget Inf (cydtw.cost_grid s1 s2) i j = Dval s1 s2 i j.
Proof.
  intros Hi Hj.
  destruct (grid_inv_fill_rows s1 s2 (length s1) (le_n _)) as [_ Hv].
  apply Hv; [exact Hi|exact Hj|]. left. exact Hi.
Qed.

(** Evaluation of one grid cell from the cells already evaluated. *)
Ltac dtw_cell :=
  rewrite Dval_S_S;
  repeat match goal with
         | H : Dval _ _ _ _ = Fin _ |- _ => rewrite H
         end;
  rewrite ?Dval_0_0, ?Dval_0_S, ?Dval_S_0;
  repeat match goal with x := _ |- _ => subst x end;
  cbn [xadd xmin3 xmin cydtw.local_cost sqdist nth];
  f_equal; unfold Rmin; repeat destruct (Rle_dec _ _); lra.

Lemma dtw_example_1 :
  dtw (Raw1 [1; 2; 3]) (Raw1 [1; 2; 2; 3]) = Fin 0.
Proof.
  unfold dtw, cydtw.dtw. rewrite cost_grid_Dval by reflexivity.
  cbn [npy2d_time_series map length].
  set (s1 := [[1]; [2]; [3]]). set (s2 := [[1]; [2]; [2]; [3]]).
  assert (H11 : Dval s1 s2 1 1 = Fin 0) by dtw_cell.
  assert (H12 : Dval s1 s2 1 2 = Fin 1) by dtw_cell.
  assert (H13 : Dval s1 s2 1 3 = Fin 2) by dtw_cell.
  assert (H14 : Dval s1 s2 1 4 = Fin 6) by dtw_cell.
  assert (H21 : Dval s1 s2 2 1 = Fin 1) by dtw_cell.
  assert (H22 : Dval s1 s2 2 2 = Fin 0) by dtw_cell.
  assert (H23 : Dval s1 s2 2 3 = Fin 0) by dtw_cell.
  assert (H24 : Dval s1 s2 2 4 = Fin 1) by dtw_cell.
  assert (H31 : Dval s1 s2 3 1 = Fin 5) by dtw_cell.
  assert (H32 : Dval s1 s2 3 2 = Fin 1) by dtw_cell.
  assert (H33 : Dval s1 s2 3 3 = Fin 1) by dtw_cell.
  assert (H34 : Dval s1 s2 3 4 = Fin 0) by dtw_cell.
  rewrite H34. simpl. f_equal. apply sqrt_0.
Qed.

Lemma dtw_example_2 :
  dtw (Raw1 [1; 2; 3]) (Raw1 [1; 2; 2; 3; 4]) = Fin 1.
Proof.
  unfold dtw, cydtw.dtw. rewrite cost_grid_Dval by reflexivity.
  cbn [npy2d_time_series map length].
  set (s1 := [[1]; [2]; [3]]). set (s2 := [[1]; [2]; [2]; [3]; [4]]).
  assert (H11 : Dval s1 s2 1 1 = Fin 0) by dtw_cell.
  assert (H12 : Dval s1 s2 1 2 = Fin 1) by dtw_cell.
  assert (H13 : Dval s1 s2 1 3 = Fin 2) by dtw_cell.
  assert (H14 : Dval s1 s2 1 4 = Fin 6) by dtw_cell.
  assert (H15 : Dval s1 s2 1 5 = Fin 15) by dtw_cell.
  assert (H21 : Dval s1 s2 2 1 = Fin 1) by dtw_cell.
  assert (H22 : Dval s1 s2 2 2 = Fin 0) by dtw_cell.
  assert (H23 : Dval s1 s2 2 3 = Fin 0) by dtw_cell.
  assert (H24 : Dval s1 s2 2 4 = Fin 1) by dtw_cell.
  assert (H25 : Dval s1 s2 2 5 = Fin 5) by dtw_cell.
  assert (H31 : Dval s1 s2 3 1 = Fin 5) by dtw_cell.
  assert (H32 : Dval s1 s2 3 2 = Fin 1) by dtw_cell.
  assert (H33 : Dval s1 s2 3 3 = Fin 1) by dtw_cell.
  assert (H34 : Dval s1 s2 3 4 = Fin 0) by dtw_cell.
  assert (H35 : Dval s1 s2 3 5 = Fin 1) by dtw_cell.
  rewrite H35. simpl. f_equal. apply sqrt_1.
Qed.

(** C4: [dtw] returns [sqrt(D[n][m])], where the grid [D] has
    [D[0][0] = 0], an infinite first row and column, and every other cell
    is the squared Euclidean local cost plus the minimum of its three
    predecessors; [dtw([1,2,3], [1,2,2,3])] is [0] and
    [dtw([1,2,3], [1,2,2,3,4])] is [1]. *)
Theorem dtw_sqrt_of_cost_grid :
  (forall s1 s2 : raw_series,
      let a := npy2d_time_series s1 in
      let b := npy2d_time_series s2 in
      let D := cydtw.cost_grid a b in
      dtw s1 s2 = xsqrt (mget Inf D (length a) (length b)) /\
      mget Inf D 0 0 = Fin 0 /\
      (forall i, (i < length a)%nat -> mget Inf D (S i) 0 = Inf) /\
      (forall j, (j < length b)%nat -> mget Inf D 0 (S j) = Inf) /\
      (forall i j, (i < length a)%nat -> (j < length b)%nat ->
         mget Inf D (S i) (S j) =
         xadd (sqdist (nth i a []) (nth j b []))
           (xmin3 (mget Inf D i (S j)) (mget Inf D (S i) j)
              (mget Inf D i j)))) /\
  dtw (Raw1 [1; 2; 3]) (Raw1 [1; 2; 2; 3]) = Fin 0 /\
  dtw (Raw1 [1; 2; 3]) (Raw1 [1; 2; 2; 3; 4]) = Fin 1.
Proof.
  split; [|split; [exact dtw_example_1|exact dtw_example_2]].
  intros s1 s2 a b D. repeat split.
  - subst D. rewrite cost_grid_Dval by lia. reflexivity.
  - intros i Hi. subst D. rewrite cost_grid_Dval by lia. reflexivity.
  - intros j Hj. subst D. rewrite cost_grid_Dval by lia. reflexivity.
  - intros i j Hi Hj. subst D. rewrite !cost_grid_Dval by lia.
    apply Dval_S_S.
Qed.

Lemma dtw_sqrt_of_cost_grid_witness :
  mget Inf (cydtw.cost_grid [[1]] [[1]; [2]]) 1 2 =
  xadd (sqdist [1] [2])
    (xmin3 (mget Inf (cydtw.cost_grid [[1]] [[1]; [2]]) 0 2)
       (mget Inf (cydtw.cost_grid [[1]] [[1]; [2]]) 1 1)
       (mget Inf (cydtw.cost_grid [[1]] [[1]; [2]]) 0 1)).
Proof.
  destruct dtw_sqrt_of_cost_grid as [H _].
  destruct (H (Raw1 [1]) (Raw1 [1; 2])) as (_ & _ & _ & _ & Hrec).
  apply (Hrec 0%nat 1%nat); simpl; lia.
Defined.

(** ** Backtrace *)

Lemma xmin_fin_l x y : is_fin x -> is_fin (xmin x y).
Proof. destruct x, y; simpl; tauto. Qed.

Lemma xmin_fin_r x y : is_fin y -> is_fin (xmin x y).
Proof. destruct x, y; simpl; tauto. Qed.

Lemma xadd_fin c x : is_fin x -> is_fin (xadd c x).
Proof. destruct x; simpl; tauto. Qed.

(** Every cell off the first row and column holds a finite cost. *)
Lemma Dval_interior_fin s1 s2 i j : is_fin (Dval s1 s2 (S i) (S j)).
Proof.
  revert j. induction i as [|i IHi]; intros j.
  - induction j as [|j IHj]; rewrite Dval_S_S; apply xadd_fin; unfold xmin3.
    + rewrite Dval_0_0, Dval_0_S, Dval_S_0. exact I.
    + apply xmin_fin_r, xmin_fin_l. exact IHj.
  - rewrite Dval_S_S. unfold xmin3. apply xadd_fin, xmin_fin_l, IHi.
Qed.

Lemma best_pred_origin : cydtw.best_pred (Fin 0) Inf Inf = Diag.
Proof. reflexivity. Qed.

Lemma best_pred_first_row x :
  is_fin x -> cydtw.best_pred Inf Inf x = Left.
Proof. destruct x; simpl; [reflexivity|tauto]. Qed.

Lemma best_pred_first_col x :
  is_fin x -> cydtw.best_pred Inf x Inf = Up.
Proof. destruct x; simpl; [reflexivity|tauto]. Qed.

Section Backtrace.

Variables (s1 s2 : series) (D : matrix xreal).
Hypothesis D_spec : forall i j,
    (i <= length s1)%nat -> (j <= length s2)%nat ->
    mget Inf D i j = Dval s1 s2 i j.

(** From any interior cell, with fuel for every remaining step, the
    walk reaches the origin; what it emits extends the accumulator to a
    contiguous path that starts at [(0, 0)]. *)
Lemma backtrace_reaches_origin fuel : forall i j acc,
    (i + j + 2 <= fuel)%nat ->
    (i < length s1)%nat -> (j < length s2)%nat ->
    contiguous ((i, j) :: acc) ->
    exists pre,
      cydtw.backtrace D fuel (S i) (S j) acc = Some (pre ++ (i, j) :: acc) /\
      contiguous (pre ++ (i, j) :: acc) /\
      head (pre ++ (i, j) :: acc) = Some (O, O).
Proof.
  induction fuel as [|fuel IH]; intros i j acc Hf Hi Hj Hc; [lia|].
  cbn [cydtw.backtrace]. rewrite !D_spec by lia.
  assert (Hstep : forall i' j', path_step (i', j') (i, j) ->
             (i' + j' + 2 <= fuel)%nat ->
             (i' < length s1)%nat -> (j' < length s2)%nat ->
             exists pre,
               cydtw.backtrace D fuel (S i') (S j') ((i, j) :: acc) =
               Some (pre ++ (i, j) :: acc) /\
               contiguous (pre ++ (i, j) :: acc) /\
               head (pre ++ (i, j) :: acc) = Some (O, O)).
  { intros i' j' Hs Hf' Hi' Hj'.
    destruct (IH i' j' ((i, j) :: acc)) as (pre & E & C & Hh);
      [lia|lia|lia|split; assumption|].
    exists (pre ++ [(i', j')]). rewrite <- !app_assoc. simpl. auto. }
  destruct i as [|i], j as [|j].
  - rewrite Dval_0_0, Dval_0_S, Dval_S_0, best_pred_origin.
    destruct fuel as [|fuel]; [lia|]. exists []. simpl. auto.
  - rewrite !Dval_0_S, best_pred_first_row by apply Dval_interior_fin.
    apply Hstep; [|lia|lia|lia]. right; left. reflexivity.
  - rewrite !Dval_S_0, best_pred_first_col by apply Dval_interior_fin.
    apply Hstep; [|lia|lia|lia]. left. reflexivity.
  - destruct (cydtw.best_pred _ _ _).
    + apply Hstep; [|lia|lia|lia]. right; right. reflexivity.
    + apply Hstep; [|lia|lia|lia]. left. reflexivity.
    + apply Hstep; [|lia|lia|lia]. right; left. reflexivity.
Qed.

End Backtrace.

(** C7: for non-empty series [s1] (length [n]) and [s2] (length [m]) the
    path returned by [dtw_path] starts at [(0, 0)], ends at
    [(n - 1, m - 1)], and every step increases [i], [j] or both by exactly
    one. *)
Theorem dtw_path_monotone_contiguous (s1 s2 : raw_series) :
  npy2d_time_series s1 <> [] ->
  npy2d_time_series s2 <> [] ->
  exists path score,
    dtw_path s1 s2 = Some (path, score) /\
    head path = Some (O, O) /\
    last path = Some ((length (npy2d_time_series s1) - 1)%nat,
                      (length (npy2d_time_series s2) - 1)%nat) /\
    contiguous path.
Proof.
  intros H1 H2. unfold dtw_path, cydtw.dtw_path.
  destruct (npy2d_time_series s1) as [|p a] eqn:Ea; [congruence|].
  destruct (npy2d_time_series s2) as [|q b] eqn:Eb; [congruence|].
  clear H1 H2. cbn [length].
  destruct (backtrace_reaches_origin (p :: a) (q :: b)
              (cydtw.cost_grid (p :: a) (q :: b))
              (cost_grid_Dval (p :: a) (q :: b))
              (S (S (length a) + S (length b))) (length a) (length b) [])
    as (pre & E & C & Hh); [lia|simpl; lia|simpl; lia|exact I|].
  cbn [length] in E. rewrite E.
  eexists. eexists. split; [reflexivity|].
  split; [exact Hh|]. split; [|exact C].
  rewrite !Nat.sub_succ, !Nat.sub_0_r. apply last_snoc.
Qed.

Lemma dtw_path_monotone_contiguous_witness :
  exists path score,
    dtw_path (Raw1 [1; 2; 3]) (Raw1 [1; 2; 2; 3]) = Some (path, score) /\
    head path = Some (O, O) /\
    last path = Some (2%nat, 3%nat) /\
    contiguous path.
Proof.
  apply (dtw_path_monotone_contiguous (Raw1 [1; 2; 3]) (Raw1 [1; 2; 2; 3]));
    simpl; discriminate.
Defined.

(** ** Bandwidth estimation *)

Lemma nth_concat_rows {A} (dflt : A) (sz : nat) (rows : list (list A)) :
  Forall (fun r => length r = sz) rows ->
  forall k,
    nth k (concat rows) dflt = nth (k mod sz) (nth (k / sz) rows []) dflt.
Proof.
  intros Hrows. destruct sz as [|sz].
  - intros k. cbn [Nat.modulo Nat.div].
    assert (E : concat rows = []).
    { induction Hrows as [|r rows Hr _ IH]; [reflexivity|].
      simpl. rewrite IH. destruct r; [reflexivity|discriminate]. }
    rewrite E.
    assert (E0 : nth 0 rows [] = []).
    { destruct Hrows as [|r rows Hr _]; [reflexivity|].
      destruct r; [reflexivity|discriminate]. }
    rewrite E0. reflexivity.
  - induction Hrows as [|r rows Hr _ IH]; intros k.
    + cbn [concat]. destruct (k / S sz)%nat, (k mod S sz)%nat, k; reflexivity.
    + cbn [concat]. destruct (Nat.lt_ge_cases k (S sz)) as [Hk|Hk].
      * rewrite List.app_nth1 by lia.
        rewrite Nat.div_small, Nat.mod_small by lia. reflexivity.
      * rewrite List.app_nth2 by lia. rewrite Hr, IH.
        assert (Ek : k = (k - S sz + 1 * S sz)%nat) by lia.
        rewrite Ek at 3 4.
        rewrite Nat.div_add, Nat.Div0.mod_add by lia.
        replace ((k - S sz) / S sz + 1)%nat with (S ((k - S sz) / S sz))
          by lia.
        reflexivity.
Qed.

Lemma map_nth_seq {A B} (f : A -> B) (dflt : A) (l : list A) :
  map (fun j => f (nth j l dflt)) (seq 0 (length l)) = map f l.
Proof.
  induction l as [|x l IH]; [reflexivity|].
  cbn [length seq map]. f_equal.
  rewrite <- seq_shift, map_map. exact IH.
Qed.

Lemma flat_map_map {A B C} (f : B -> list C) (g : A -> B) (l : list A) :
  flat_map f (map g l) = flat_map (fun x => f (g x)) l.
Proof.
  induction l as [|x l IH]; [reflexivity|]. simpl. rewrite IH. reflexivity.
Qed.

(** [pdist] lists the distances of all pairs [i < j]. *)
Lemma pdist_pair_dists points : pdist points = pair_dists points.
Proof.
  unfold pair_dists. induction points as [|p rest IH]; [reflexivity|].
  cbn [pdist length seq flat_map]. f_equal.
  - replace (S (length rest) - 1)%nat with (length rest) by lia.
    rewrite <- seq_shift, map_map. cbn [nth].
    symmetry. apply (map_nth_seq (fun q => sqrt (sqdist p q))).
  - rewrite IH, <- seq_shift, flat_map_map.
    apply flat_map_ext. intros i.
    replace (S (length rest) - S (S i))%nat with (length rest - S i)%nat
      by lia.
    rewrite <- (seq_shift _ (S i)), map_map. reflexivity.
Qed.

Section BandwidthEstimatorFacts.

Context {rng : Type}.
Variable choice : nat -> Z -> bool -> rng -> result (list nat) * rng.

(** The generator's state is used once, by the single call of [choice]. *)
Lemma sigma_gak_unfold (ds : raw_dataset) (n_samples : Z) (g : rng) :
  let d := npy3d_time_series_dataset ds in
  let sz := length (nth 0 d []) in
  let t := (length d * sz)%nat in
  sigma_gak choice ds n_samples g =
  match choice t n_samples (Z.of_nat t <? n_samples)%Z g with
  | (Err e, g') => (Err e, g')
  | (Ok indices, g') =>
      (Ok (fmul (median (pdist (take_rows (reshape_points d) indices)))
             (sqrt (INR sz))), g')
  end.
Proof.
  intros d sz t. unfold sigma_gak, shape. fold d. fold sz. fold t.
  destruct (Z.of_nat t <? n_samples)%Z; reflexivity.
Qed.

Lemma take_rows_rectangular (d : dataset) (indices : list nat) :
  rectangular d ->
  take_rows (reshape_points d) indices =
  map (fun k => nth (k mod length (nth 0 d [])) (nth (k / length (nth 0 d [])) d []) [])
    indices.
Proof.
  intros Hd. unfold take_rows, reshape_points. apply map_ext. intros k.
  apply nth_concat_rows. unfold rectangular in Hd.
  rewrite List.Forall_forall in Hd |- *. intros s Hs. apply (Hd s Hs).
Qed.

End BandwidthEstimatorFacts.

Lemma draw_with_replacement_spec a size g :
  (0 < a)%nat ->
  length (fst (stand_in.draw_with_replacement a size g)) = size /\
  Forall (fun k => (k < a)%nat) (fst (stand_in.draw_with_replacement a size g)).
Proof.
  intros Ha. revert g. induction size as [|size IH]; intros g.
  - split; [reflexivity|constructor].
  - cbn [stand_in.draw_with_replacement].
    destruct (stand_in.draw_with_replacement a size (stand_in.next g))
      as [rest g2] eqn:E.
    specialize (IH (stand_in.next g)). rewrite E in IH. destruct IH as [IH1 IH2].
    cbn [fst length] in *. split; [f_equal; exact IH1|].
    constructor; [|exact IH2].
    pose proof (Z.mod_pos_bound (stand_in.next g) (Z.of_nat a)). lia.
Qed.

Lemma draw_without_replacement_spec a size g :
  (0 < a)%nat ->
  length (fst (stand_in.draw_without_replacement a size g)) = size /\
  Forall (fun k => (k < a)%nat)
    (fst (stand_in.draw_without_replacement a size g)).
Proof.
  intros Ha. unfold stand_in.draw_without_replacement. cbn [fst]. split.
  - rewrite length_map, length_seq. reflexivity.
  - rewrite List.Forall_forall. intros k Hk.
    apply List.in_map_iff in Hk as (j & <- & _).
    apply Nat.mod_upper_bound. lia.
Qed.

Lemma stand_in_contract : sampler_contract stand_in.choice.
Proof.
  intros a size replace g Ha Hsize Hrep. unfold stand_in.choice.
  destruct (Z.ltb_spec size 0) as [?|_]; [lia|].
  destruct (Nat.eqb_spec a 0) as [?|_]; [lia|]. cbn [andb].
  assert (E : negb replace && (Z.of_nat a <? size)%Z = false).
  { destruct Hrep as [->|Hle]; [reflexivity|].
    destruct (Z.ltb_spec (Z.of_nat a) size); [lia|].
    apply andb_false_r. }
  rewrite E. destruct (Z.eqb_spec size 0) as [->|Hnz].
  - exists [], g. repeat split. constructor.
  - destruct replace.
    + destruct (draw_with_replacement_spec a (Z.to_nat size) g Ha) as [Hl Hb].
      destruct (stand_in.draw_with_replacement a (Z.to_nat size) g)
        as [indices g'].
      exists indices, g'. auto.
    + destruct (draw_without_replacement_spec a (Z.to_nat size) g Ha)
        as [Hl Hb].
      destruct (stand_in.draw_without_replacement a (Z.to_nat size) g)
        as [indices g'].
      exists indices, g'. auto.
Qed.

(** C3: for a dataset with [t] time-points in all and [n_samples > 0],
    [sigma_gak] draws [n_samples] indices into the points of all series
    laid end to end, with replacement exactly when [t < n_samples], and
    returns the median of the Euclidean distances of all pairs of sampled
    points times the square root of the series length. *)
Theorem sigma_gak_median_of_sample {rng : Type}
  (choice : nat -> Z -> bool -> rng -> result (list nat) * rng)
  (ds : raw_dataset) (n_samples : Z) (g : rng) :
  let d := npy3d_time_series_dataset ds in
  let sz := length (nth 0 d []) in
  let t := (length d * sz)%nat in
  sampler_contract choice ->
  rectangular d -> (0 < t)%nat -> (0 < n_samples)%Z ->
  exists indices g',
    choice t n_samples (Z.of_nat t <? n_samples)%Z g = (Ok indices, g') /\
    length indices = Z.to_nat n_samples /\
    Forall (fun k => (k < t)%nat) indices /\
    sigma_gak choice ds n_samples g =
    (Ok (fmul
           (median
              (pair_dists
                 (map (fun k => nth (k mod sz) (nth (k / sz) d []) []) indices)))
           (sqrt (INR sz))), g').
Proof.
  intros d sz t Hc Hd Ht Hn.
  destruct (Hc t n_samples (Z.of_nat t <? n_samples)%Z g)
    as (indices & g' & E & Hl & Hb); [exact Ht|lia| |].
  { destruct (Z.ltb_spec (Z.of_nat t) n_samples); [left|right]; auto. }
  exists indices, g'. repeat split; try assumption.
  rewrite sigma_gak_unfold. fold d. fold sz. fold t. rewrite E.
  rewrite take_rows_rectangular by exact Hd. fold sz.
  rewrite pdist_pair_dists. reflexivity.
Qed.

Lemma sigma_gak_median_of_sample_witness :
  let ds := [Raw1 [0; 1; 3]] in
  let d := npy3d_time_series_dataset ds in
  let sz := length (nth 0 d []) in
  let t := (length d * sz)%nat in
  exists indices g',
    stand_in.choice t 2 (Z.of_nat t <? 2)%Z 0%Z = (Ok indices, g') /\
    length indices = Z.to_nat 2 /\
    Forall (fun k => (k < t)%nat) indices /\
    sigma_gak stand_in.choice ds 2 0%Z =
    (Ok (fmul
           (median
              (pair_dists
                 (map (fun k => nth (k mod sz) (nth (k / sz) d []) []) indices)))
           (sqrt (INR sz))), g').
Proof.
  intros ds d sz t.
  apply (sigma_gak_median_of_sample stand_in.choice ds 2 0%Z).
  - exact stand_in_contract.
  - repeat constructor.
  - simpl. lia.
  - lia.
Defined.

(** C2 (as the code has it): [sigma_gak] does not validate [n_samples].
    For [n_samples <= 0] the test [n_ts * sz < n_samples] fails, so the
    sampler is called with [replace = False] and the unchanged
    [n_samples]; an error is raised only if the sampler raises one, and
    otherwise the median of the sample's pairwise distances times
    [sqrt(sz)] is returned. *)
Theorem sigma_gak_nonpositive_samples_unchecked {rng : Type}
  (choice : nat -> Z -> bool -> rng -> result (list nat) * rng)
  (ds : raw_dataset) (n_samples : Z) (g : rng) :
  let d := npy3d_time_series_dataset ds in
  let sz := length (nth 0 d []) in
  let t := (length d * sz)%nat in
  (n_samples <= 0)%Z ->
  sigma_gak choice ds n_samples g =
  match choice t n_samples false g with
  | (Err e, g') => (Err e, g')
  | (Ok indices, g') =>
      (Ok (fmul (median (pdist (take_rows (reshape_points d) indices)))
             (sqrt (INR sz))), g')
  end /\
  (forall g', choice t n_samples false g = (Ok [], g') ->
              sigma_gak choice ds n_samples g = (Ok None, g')).
Proof.
  intros d sz t Hn. rewrite sigma_gak_unfold. fold d. fold sz. fold t.
  destruct (Z.ltb_spec (Z.of_nat t) n_samples); [lia|].
  split; [reflexivity|]. intros g' ->. reflexivity.
Qed.

Lemma sigma_gak_nonpositive_samples_unchecked_witness :
  sigma_gak stand_in.choice [Raw1 [1; 2]] 0 7%Z =
  match stand_in.choice 2 0 false 7%Z with
  | (Err e, g') => (Err e, g')
  | (Ok indices, g') =>
      (Ok (fmul
             (median
                (pdist
                   (take_rows
                      (reshape_points (npy3d_time_series_dataset [Raw1 [1; 2]]))
                      indices)))
             (sqrt (INR 2))), g')
  end /\
  (forall g', stand_in.choice 2 0 false 7%Z = (Ok [], g') ->
              sigma_gak stand_in.choice [Raw1 [1; 2]] 0 7%Z = (Ok None, g')).
Proof.
  apply (sigma_gak_nonpositive_samples_unchecked stand_in.choice
           [Raw1 [1; 2]] 0 7%Z).
  lia.
Defined.

(** With [n_samples = 0] nothing is rejected: the sample is empty, there
    is no distance, and the result is [nan]. *)
Lemma sigma_gak_zero_samples_not_rejected :
  sigma_gak stand_in.choice [Raw1 [1; 2]] 0 7%Z = (Ok None, 7%Z) /\
  fst (sigma_gak stand_in.choice [Raw1 [1; 2]] 0 7%Z) <> Err ParameterError.
Proof.
  assert (E : sigma_gak stand_in.choice [Raw1 [1; 2]] 0 7%Z = (Ok None, 7%Z)).
  { rewrite sigma_gak_unfold. reflexivity. }
  split; [exact E|]. rewrite E. discriminate.
Qed.

(** C1 (as the code has it): [sigma_gak] has no seed parameter; it draws
    from the process-wide generator.  The bandwidth depends on the
    generator only through the sample drawn: two calls with the same
    dataset and [n_samples] whose draws yield the same sample return the
    same bandwidth, and a call leaves the generator in the state the
    sampler left it. *)
Theorem sigma_gak_same_sample_same_bandwidth {rng : Type}
  (choice : nat -> Z -> bool -> rng -> result (list nat) * rng)
  (ds : raw_dataset) (n_samples : Z) (g1 g2 : rng) :
  let d := npy3d_time_series_dataset ds in
  let t := (length d * length (nth 0 d []))%nat in
  let replace := (Z.of_nat t <? n_samples)%Z in
  (fst (choice t n_samples replace g1) = fst (choice t n_samples replace g2) ->
   fst (sigma_gak choice ds n_samples g1) =
   fst (sigma_gak choice ds n_samples g2)) /\
  snd (sigma_gak choice ds n_samples g1) =
  snd (choice t n_samples replace g1).
Proof.
  intros d t replace. rewrite !sigma_gak_unfold. fold d. fold t. fold replace.
  destruct (choice t n_samples replace g1) as [[i1|e1] h1],
    (choice t n_samples replace g2) as [[i2|e2] h2]; cbn [fst snd];
    (split; [|reflexivity]); intros E; congruence.
Qed.

Lemma sigma_gak_same_sample_same_bandwidth_witness :
  fst (sigma_gak stand_in.choice [Raw1 [0; 1; 3]] 2 0%Z) =
  fst (sigma_gak stand_in.choice [Raw1 [0; 1; 3]] 2 1%Z).
Proof.
  apply (sigma_gak_same_sample_same_bandwidth stand_in.choice
           [Raw1 [0; 1; 3]] 2 0%Z 1%Z).
  reflexivity.
Defined.

Lemma sigma_gak_first_call :
  sigma_gak stand_in.choice [Raw1 [0; 1; 3]] 2 0%Z =
  (Ok (Some (1 * sqrt (INR 3))), 12345%Z).
Proof.
  rewrite sigma_gak_unfold.
  replace (stand_in.choice _ _ _ _) with (Ok [0; 1]%nat, 12345%Z)
    by reflexivity.
  cbn.
  replace (sqrt ((0 - 1) * (0 - 1) + 0)) with 1
    by (symmetry; apply sqrt_lem_1; lra).
  reflexivity.
Qed.

Lemma sigma_gak_second_call :
  sigma_gak stand_in.choice [Raw1 [0; 1; 3]] 2 12345%Z =
  (Ok (Some (2 * sqrt (INR 3))), 1406932606%Z).
Proof.
  rewrite sigma_gak_unfold.
  replace (stand_in.choice _ _ _ _) with (Ok [1; 2]%nat, 1406932606%Z)
    by reflexivity.
  cbn.
  replace (sqrt ((1 - 3) * (1 - 3) + 0)) with 2
    by (symmetry; apply sqrt_lem_1; lra).
  reflexivity.
Qed.

(** Two calls in a row with the same dataset and the same [n_samples]:
    the second starts from the generator state the first one left, and
    returns another bandwidth. *)
Lemma sigma_gak_same_arguments_differ :
  exists r1 g1 r2 g2,
    sigma_gak stand_in.choice [Raw1 [0; 1; 3]] 2 0%Z = (r1, g1) /\
    sigma_gak stand_in.choice [Raw1 [0; 1; 3]] 2 g1 = (r2, g2) /\
    r1 <> r2.
Proof.
  eexists. eexists. eexists. eexists.
  split; [apply sigma_gak_first_call|].
  split; [apply sigma_gak_second_call|].
  intros [= E].
  assert (0 < sqrt (1 + 1 + 1)) by (apply sqrt_lt_R0; lra).
  lra.
Qed.

(** ** Cross-similarity matrices *)

(** Two nested loops that visit the cells in row-major order maintain any
    invariant that each cell step and each change of row maintain. *)
Lemma fill_loops_inv {A} (P : matrix A -> nat -> nat -> Prop)
  (step : matrix A -> nat -> nat -> matrix A) (n m : nat) (M0 : matrix A) :
  (forall M i j, (i < n)%nat -> (j < m)%nat -> P M i j -> P (step M i j) i (S j)) ->
  (forall M i, (i < n)%nat -> P M i m -> P M (S i) O) ->
  P M0 O O ->
  P (fold_left (fun M i => fold_left (fun M j => step M i j) (seq 0 m) M)
       (seq 0 n) M0) n O.
Proof.
  intros Hstep Hrow H0.
  assert (Hcols : forall i c M, (i < n)%nat -> (c <= m)%nat -> P M i O ->
            P (fold_left (fun M j => step M i j) (seq 0 c) M) i c).
  { intros i c M Hi. induction c as [|c IH]; intros Hc HM; [exact HM|].
    rewrite seq_S, fold_left_app. simpl. apply Hstep; [lia|lia|].
    apply IH; [lia|exact HM]. }
  assert (Hrows : forall r, (r <= n)%nat ->
            P (fold_left
                 (fun M i => fold_left (fun M j => step M i j) (seq 0 m) M)
                 (seq 0 r) M0) r O).
  { induction r as [|r IH]; intros Hr; [exact H0|].
    rewrite seq_S, fold_left_app. simpl. apply Hrow; [lia|].
    apply Hcols; [lia|lia|]. apply IH. lia. }
  apply Hrows. lia.
Qed.

Section CrossSimilarityFacts.

Context {A : Type}.
Variables (blank : A) (engine : series -> series -> A) (diag : A).
Variables (dataset1 dataset2 : dataset) (self_similarity : bool).
Hypothesis square : self_similarity = true -> length dataset1 = length dataset2.

Let n1 := length dataset1.
Let n2 := length dataset2.

Local Abbreviation batch_inv :=
  (cdist_inv blank engine diag dataset1 dataset2 self_similarity).

Lemma cdist_inv_cell M i j :
  (i < n1)%nat -> (j < n2)%nat -> batch_inv M i j ->
  batch_inv (cdist_cell blank engine diag dataset1 dataset2 self_similarity M i j)
    i (S j).
Proof.
  intros Hi Hj [Hs Hv].
  assert (Hnew : forall v,
             v = cdist_val engine diag dataset1 dataset2 self_similarity i j ->
             batch_inv (mset M i j v) i (S j)).
  { intros v ->. split; [apply shape_ok_mset, Hs|].
    intros a b Ha Hb Hc.
    destruct (decide ((i, j) = (a, b))) as [E|E].
    - injection E as <- <-.
      erewrite mget_mset_eq; [reflexivity|exact Hs|lia|lia].
    - rewrite mget_mset_ne by exact E. apply Hv; [lia|lia|].
      destruct Hc as [Hc|[Hc1 Hc2]]; [left; lia|].
      right. split; [exact Hc1|]. assert (b <> j) by congruence. lia. }
  unfold cdist_cell. destruct self_similarity eqn:Eself; cbn [andb].
  - pose proof (square eq_refl) as Hsq. fold n1 n2 in Hsq.
    destruct (Nat.ltb_spec j i) as [Hlt|Hge].
    + apply Hnew. rewrite Hv by lia. unfold cdist_val.
      destruct (Nat.eqb_spec j i) as [?|_]; [lia|].
      destruct (Nat.ltb_spec i j) as [?|_]; [lia|].
      destruct (Nat.eqb_spec i j) as [?|_]; [lia|].
      destruct (Nat.ltb_spec j i) as [_|?]; [reflexivity|lia].
    + destruct (Nat.eqb_spec i j) as [Heq|Hne]; apply Hnew; unfold cdist_val.
      * destruct (Nat.eqb_spec i j) as [_|?]; [reflexivity|lia].
      * destruct (Nat.eqb_spec i j) as [?|_]; [lia|].
        destruct (Nat.ltb_spec j i) as [?|_]; [lia|reflexivity].
  - apply Hnew. reflexivity.
Qed.

Lemma cdist_spec i j :
  (i < n1)%nat -> (j < n2)%nat ->
  mget blank
    (cdist blank engine diag dataset1 dataset2 self_similarity) i j =
  cdist_val engine diag dataset1 dataset2 self_similarity i j.
Proof.
  intros Hi Hj.
  assert (H : batch_inv
                (cdist blank engine diag dataset1 dataset2 self_similarity)
                n1 O).
  { unfold cdist. fold n1 n2. apply fill_loops_inv.
    - intros M a b. apply cdist_inv_cell.
    - intros M a Ha [Hs Hv]. split; [exact Hs|].
      intros a' b' Ha' Hb' Hc. apply Hv; [lia|lia|].
      destruct Hc as [Hc|[Hc1 Hc2]]; [|lia].
      destruct (decide (a' = a)) as [->|?]; [right; lia|left; lia].
    - split; [apply shape_ok_mfull|]. intros a b _ _ Hc. lia. }
  destruct H as [_ Hv]. apply Hv; [exact Hi|exact Hj|left; exact Hi].
Qed.

End CrossSimilarityFacts.

Lemma cdist_val_self_symmetric {A} (engine : series -> series -> A)
  (diag : A) (d : dataset) i j :
  cdist_val engine diag d d true i j = cdist_val engine diag d d true j i.
Proof.
  unfold cdist_val.
  destruct (Nat.eqb_spec i j) as [->|Hne].
  - rewrite Nat.eqb_refl. reflexivity.
  - destruct (Nat.eqb_spec j i) as [?|_]; [congruence|].
    destruct (Nat.ltb_spec j i), (Nat.ltb_spec i j); try reflexivity; lia.
Qed.

Lemma cdist_val_self_diag {A} (engine : series -> series -> A)
  (diag : A) (d : dataset) i :
  cdist_val engine diag d d true i i = diag.
Proof. unfold cdist_val. rewrite Nat.eqb_refl. reflexivity. Qed.

Lemma length_npy3d (ds : raw_dataset) :
  length (npy3d_time_series_dataset ds) = length ds.
Proof. unfold npy3d_time_series_dataset. apply length_map. Qed.

(** C6: with [dataset2] omitted, the matrix returned by [cdist_dtw]
    (respectively [cdist_gak]) is symmetric, and every diagonal entry is 0
    for the DTW distance and 1 for the normalised kernel. *)
Theorem cdist_self_similarity_symmetric (ds : raw_dataset) (sigma : R) :
  let n := length ds in
  ((forall i j, (i < n)%nat -> (j < n)%nat ->
      mget Inf (cdist_dtw ds None) i j = mget Inf (cdist_dtw ds None) j i) /\
   (forall i, (i < n)%nat -> mget Inf (cdist_dtw ds None) i i = Fin 0)) /\
  ((0 < sigma -> exists M, cdist_gak ds None sigma = Ok M) /\
   (forall M, cdist_gak ds None sigma = Ok M ->
      (forall i j, (i < n)%nat -> (j < n)%nat ->
         mget 0 M i j = mget 0 M j i) /\
      (forall i, (i < n)%nat -> mget 0 M i i = 1))).
Proof.
  intros n. unfold cdist_dtw, cdist_gak, metrics.cdist_dtw, metrics.cdist_gak,
    cydtw.cdist_dtw, cygak.cdist_gak.
  set (d := npy3d_time_series_dataset ds).
  assert (Hn : length d = n) by apply length_npy3d.
  split; [split|split].
  - intros i j Hi Hj. rewrite !cdist_spec by (auto; lia).
    apply cdist_val_self_symmetric.
  - intros i Hi. rewrite cdist_spec by (auto; lia).
    apply cdist_val_self_diag.
  - intros Hs. destruct (Rle_dec sigma 0) as [?|_]; [lra|]. eauto.
  - intros M. destruct (Rle_dec sigma 0) as [?|_]; [discriminate|].
    intros [= <-]. split.
    + intros i j Hi Hj. rewrite !cdist_spec by (auto; lia).
      apply cdist_val_self_symmetric.
    + intros i Hi. rewrite cdist_spec by (auto; lia).
      apply cdist_val_self_diag.
Qed.

Lemma cdist_self_similarity_symmetric_witness :
  mget Inf (cdist_dtw [Raw1 [1; 2; 2; 3]; Raw1 [1; 2; 3; 4]] None) 0 1 =
  mget Inf (cdist_dtw [Raw1 [1; 2; 2; 3]; Raw1 [1; 2; 3; 4]] None) 1 0 /\
  mget Inf (cdist_dtw [Raw1 [1; 2; 2; 3]; Raw1 [1; 2; 3; 4]] None) 1 1 = Fin 0 /\
  exists M, cdist_gak [Raw1 [1; 2; 2; 3]; Raw1 [1; 2; 3; 4]] None 2 = Ok M.
Proof.
  destruct (cdist_self_similarity_symmetric
              [Raw1 [1; 2; 2; 3]; Raw1 [1; 2; 3; 4]] 2)
    as [[Hsym Hdiag] [Hret _]].
  split; [apply Hsym; simpl; lia|].
  split; [apply Hdiag; simpl; lia|].
  apply Hret. lra.
Defined.

(** C10: self-similarity mode is entered only when [dataset2] is omitted.
    Whatever the batch engines are, a call with a [dataset2], even one equal
    to [dataset1], hands them [self_similarity = False], and a call without
    one hands them [dataset1] twice and [self_similarity = True]; the flag an
    engine receives is [True] exactly when [dataset2] is omitted.  With the
    batch engines of [cydtw] and [cygak], every cell of a call with a
    [dataset2], the diagonal and the lower triangle included, is computed by
    the pairwise engine. *)
Theorem cdist_explicit_dataset2_not_self_similarity
  {dist_matrix kernel_matrix : Type}
  (cydtw_cdist_dtw : dataset -> dataset -> bool -> dist_matrix)
  (cygak_cdist_gak : dataset -> dataset -> R -> bool -> kernel_matrix)
  (ds1 ds2 : raw_dataset) (sigma : R) :
  let d1 := npy3d_time_series_dataset ds1 in
  let d2 := npy3d_time_series_dataset ds2 in
  metrics.cdist_dtw cydtw_cdist_dtw ds1 (Some ds2)
  = cydtw_cdist_dtw d1 d2 false /\
  metrics.cdist_gak cygak_cdist_gak ds1 (Some ds2) sigma
  = cygak_cdist_gak d1 d2 sigma false /\
  metrics.cdist_dtw cydtw_cdist_dtw ds1 None = cydtw_cdist_dtw d1 d1 true /\
  metrics.cdist_gak cygak_cdist_gak ds1 None sigma
  = cygak_cdist_gak d1 d1 sigma true /\
  (forall dataset2 : option raw_dataset,
     metrics.cdist_dtw (fun _ _ self_similarity => self_similarity)
       ds1 dataset2 = true <-> dataset2 = None) /\
  (forall dataset2 : option raw_dataset,
     metrics.cdist_gak (fun _ _ _ self_similarity => self_similarity)
       ds1 dataset2 sigma = true <-> dataset2 = None) /\
  (forall i j, (i < length ds1)%nat -> (j < length ds2)%nat ->
     mget Inf (cdist_dtw ds1 (Some ds2)) i j =
     cydtw.dtw (nth i d1 []) (nth j d2 [])) /\
  (forall M, cdist_gak ds1 (Some ds2) sigma = Ok M ->
     forall i j, (i < length ds1)%nat -> (j < length ds2)%nat ->
       mget 0 M i j = cygak.normalized (nth i d1 []) (nth j d2 []) sigma).
Proof.
  intros d1 d2. repeat split.
  - destruct dataset2; [discriminate|reflexivity].
  - intros ->. reflexivity.
  - destruct dataset2; [discriminate|reflexivity].
  - intros ->. reflexivity.
  - intros i j Hi Hj.
    unfold cdist_dtw, metrics.cdist_dtw, cydtw.cdist_dtw. fold d1 d2.
    rewrite cdist_spec; [reflexivity|discriminate| |];
      unfold d1, d2; rewrite length_npy3d; assumption.
  - intros M. unfold cdist_gak, metrics.cdist_gak, cygak.cdist_gak.
    fold d1 d2.
    destruct (Rle_dec sigma 0) as [?|_]; [discriminate|].
    intros [= <-] i j Hi Hj.
    rewrite cdist_spec; [reflexivity|discriminate| |];
      unfold d1, d2; rewrite length_npy3d; assumption.
Qed.

Lemma cdist_explicit_dataset2_not_self_similarity_witness :
  metrics.cdist_dtw (fun _ _ self_similarity => self_similarity)
    [Raw1 [1; 2]; Raw1 [3]] (Some [Raw1 [1; 2]; Raw1 [3]]) = false /\
  metrics.cdist_gak (fun _ _ _ self_similarity => self_similarity)
    [Raw1 [1; 2]; Raw1 [3]] (Some [Raw1 [1; 2]; Raw1 [3]]) 1 = false /\
  mget Inf (cdist_dtw [Raw1 [1; 2]; Raw1 [3]] (Some [Raw1 [1; 2]; Raw1 [3]]))
    1 1 =
  cydtw.dtw [[3]] [[3]].
Proof.
  destruct (cdist_explicit_dataset2_not_self_similarity
              (fun (_ _ : dataset) (self_similarity : bool) => self_similarity)
              (fun (_ _ : dataset) (_ : R) (self_similarity : bool) =>
                 self_similarity)
              [Raw1 [1; 2]; Raw1 [3]] [Raw1 [1; 2]; Raw1 [3]] 1)
    as (H1 & H2 & _ & _ & _ & _ & H3 & _).
  split; [exact H1|]. split; [exact H2|].
  apply H3; simpl; lia.
Defined.

(** C9: [lr_dtw] and the score component of [lr_dtw_path] are the first
    element of the same [cylrdtw.lr_dtw] result; [lr_dtw] merely drops the
    probability grid. *)
Theorem lr_dtw_is_score_of_lr_dtw_path {probas path : Type}
  (cylrdtw_lr_dtw : series -> series -> R -> option (R * probas))
  (cylrdtw_lr_dtw_backtrace : probas -> option path)
  (s1 s2 : raw_series) (gamma : R) :
  let engine :=
    cylrdtw_lr_dtw (npy2d_time_series s1) (npy2d_time_series s2) gamma in
  lr_dtw cylrdtw_lr_dtw s1 s2 gamma = fst <$> engine /\
  (forall p sim,
     lr_dtw_path cylrdtw_lr_dtw cylrdtw_lr_dtw_backtrace s1 s2 gamma
     = Some (p, sim) ->
     lr_dtw cylrdtw_lr_dtw s1 s2 gamma = Some sim) /\
  (forall sim,
     lr_dtw cylrdtw_lr_dtw s1 s2 gamma = Some sim ->
     match lr_dtw_path cylrdtw_lr_dtw cylrdtw_lr_dtw_backtrace s1 s2 gamma with
     | Some (_, sim') => sim' = sim
     | None =>
         exists pr, engine = Some (sim, pr) /\
                    cylrdtw_lr_dtw_backtrace pr = None
     end).
Proof.
  intros engine. unfold lr_dtw, lr_dtw_path. fold engine.
  destruct engine as [[sim pr]|]; cbn.
  - split; [reflexivity|]. split.
    + intros p sim'. destruct (cylrdtw_lr_dtw_backtrace pr); cbn; congruence.
    + intros sim' [= <-]. destruct (cylrdtw_lr_dtw_backtrace pr) eqn:E; cbn.
      * reflexivity.
      * eauto.
  - split; [reflexivity|]. split; intros; discriminate.
Qed.

Lemma lr_dtw_is_score_of_lr_dtw_path_witness :
  lr_dtw (fun _ _ gamma => Some (gamma, tt)) (Raw1 [1]) (Raw1 [1; 2]) 0
  = Some 0.
Proof.
  destruct (lr_dtw_is_score_of_lr_dtw_path
              (fun _ _ gamma => Some (gamma, tt)) (fun _ : unit => Some tt)
              (Raw1 [1]) (Raw1 [1; 2]) 0) as (_ & H & _).
  apply (H tt 0). reflexivity.
Defined.

(** ** The GAK grid *)

(** Induction over the cells of a grid, in the order of the recurrence. *)
Lemma grid_ind (Q : nat -> nat -> Prop) :
  (forall j, Q O j) ->
  (forall i, Q (S i) O) ->
  (forall i j, Q i (S j) -> Q (S i) j -> Q i j -> Q (S i) (S j)) ->
  forall i j, Q i j.
Proof.
  intros H0 H1 H2. induction i as [|i IHi]; [exact H0|].
  induction j as [|j IHj]; [apply H1|]. apply H2; auto.
Qed.

Lemma sqdist_nonneg u v : 0 <= sqdist u v.
Proof.
  revert v. induction u as [|a u IH]; intros [|b v]; simpl; try lra.
  specialize (IH v). pose proof (Rle_0_sqr (a - b)) as Hq.
  unfold Rsqr in Hq. lra.
Qed.

Lemma sqdist_sym u v : sqdist u v = sqdist v u.
Proof.
  revert v. induction u as [|a u IH]; intros [|b v]; simpl; try reflexivity.
  rewrite (IH v). ring.
Qed.

Lemma sqdist_refl u : sqdist u u = 0.
Proof. induction u as [|a u IH]; simpl; [reflexivity|]. rewrite IH. ring. Qed.

Lemma Rinv_nonneg x : 0 <= x -> 0 <= / x.
Proof.
  intros [Hx | <-]; [left; apply Rinv_0_lt_compat, Hx|].
  rewrite Rinv_0. lra.
Qed.

Lemma exp_le_1 z : z <= 0 -> exp z <= 1.
Proof.
  intros [Hz | ->]; [|rewrite exp_0; lra].
  rewrite <- exp_0. left. apply exp_increasing, Hz.
Qed.

Lemma gauss_range sigma x y : 0 < cygak.gauss sigma x y <= 1.
Proof.
  unfold cygak.gauss. split; [apply exp_pos|]. apply exp_le_1.
  pose proof (sqdist_nonneg x y) as Hd.
  assert (Hs : 0 <= / (2 * (sigma * sigma))) by (apply Rinv_nonneg; nra).
  unfold Rdiv. nra.
Qed.

Lemma gauss_sym sigma x y : cygak.gauss sigma x y = cygak.gauss sigma y x.
Proof. unfold cygak.gauss. rewrite sqdist_sym. reflexivity. Qed.

Lemma local_kernel_pos sigma x y : 0 < cygak.local_kernel sigma x y.
Proof.
  unfold cygak.local_kernel. destruct (gauss_range sigma x y) as [H0 H1].
  apply Rdiv_lt_0_compat; lra.
Qed.

Lemma local_kernel_sym sigma x y :
  cygak.local_kernel sigma x y = cygak.local_kernel sigma y x.
Proof. unfold cygak.local_kernel. rewrite gauss_sym. reflexivity. Qed.

Lemma exp_log_local_kernel sigma x y :
  exp (cygak.log_local_kernel sigma x y) = cygak.local_kernel sigma x y.
Proof.
  unfold cygak.log_local_kernel, cygak.local_kernel.
  destruct (gauss_range sigma x y) as [H0 H1].
  unfold Rminus at 1. rewrite exp_plus, exp_Ropp, exp_ln by lra.
  fold (cygak.gauss sigma x y). unfold Rdiv. reflexivity.
Qed.

Lemma lexp_ladd c x : lexp (ladd c x) = exp c * lexp x.
Proof. destruct x; simpl; [ring|apply exp_plus]. Qed.

Lemma lexp_logsumexp x y : lexp (logsumexp x y) = lexp x + lexp y.
Proof.
  destruct x as [|a], y as [|b]; simpl; try ring.
  pose proof (exp_pos (a - Rmax a b)). pose proof (exp_pos (b - Rmax a b)).
  rewrite exp_plus, exp_ln by lra.
  rewrite Rmult_plus_distr_l, <- !exp_plus. f_equal; f_equal; ring.
Qed.

Lemma lexp_logsumexp3 x y z :
  lexp (logsumexp3 x y z) = lexp x + lexp y + lexp z.
Proof. unfold logsumexp3. rewrite !lexp_logsumexp. ring. Qed.

Lemma Kval_S_S sigma s1 s2 i j :
  Kval sigma s1 s2 (S i) (S j) =
  (Kval sigma s1 s2 i (S j) + Kval sigma s1 s2 (S i) j + Kval sigma s1 s2 i j)
  * cygak.local_kernel sigma (nth i s1 []) (nth j s2 []).
Proof. reflexivity. Qed.

Lemma log_grid_inv_fill_cell sigma s1 s2 L i j :
  (i < length s1)%nat -> (j < length s2)%nat ->
  log_grid_inv sigma s1 s2 L i j ->
  log_grid_inv sigma s1 s2 (cygak.fill_cell sigma s1 s2 L i j) i (S j).
Proof.
  intros Hi Hj [Hs Hv]. split.
  - apply shape_ok_mset, Hs.
  - intros a b Ha Hb Hc. unfold cygak.fill_cell.
    destruct (decide ((S i, S j) = (a, b))) as [E|E].
    + injection E as <- <-.
      erewrite mget_mset_eq; [|exact Hs|lia|lia].
      rewrite lexp_ladd, lexp_logsumexp3, exp_log_local_kernel, !Hv by lia.
      rewrite Kval_S_S. unfold Rdiv. ring.
    + rewrite mget_mset_ne by exact E.
      apply Hv; [lia|lia|].
      destruct Hc as [Hc|[[Hc1 Hc2]|Hc]]; [lia| |lia].
      right; left. split; [exact Hc1|].
      assert (b <> S j) by congruence. lia.
Qed.

(** The logarithmic grid exponentiates to the recurrence in every cell. *)
Lemma log_grid_Kval sigma s1 s2 i j :
  (i <= length s1)%nat -> (j <= length s2)%nat ->
  lexp (mget NegInf (cygak.log_grid sigma s1 s2) i j) = Kval sigma s1 s2 i j.
Proof.
  intros Hi Hj.
  assert (H : log_grid_inv sigma s1 s2 (cygak.log_grid sigma s1 s2)
                (length s1) O).
  { unfold cygak.log_grid, cygak.fill_row.
    apply (fill_loops_inv (log_grid_inv sigma s1 s2)
             (cygak.fill_cell sigma s1 s2)).
    - intros L a b. apply log_grid_inv_fill_cell.
    - intros L a Ha [Hs Hv]. split; [exact Hs|].
      intros a' b' Ha' Hb' Hc. apply Hv; [lia|lia|].
      destruct Hc as [Hc|[[Hc1 Hc2]|Hc]]; lia.
    - split; [apply shape_ok_mset, shape_ok_mfull|].
      intros a b Ha Hb Hc. unfold cygak.init_grid.
      destruct (decide ((0, 0)%nat = (a, b))) as [E|E].
      + injection E as <- <-.
        erewrite mget_mset_eq; [apply exp_0|apply shape_ok_mfull|lia|lia].
      + rewrite mget_mset_ne by exact E. rewrite mget_mfull by lia.
        destruct a as [|a], b as [|b]; try reflexivity; try congruence.
        exfalso. destruct Hc as [Hc|[[_ Hc]|Hc]]; lia. }
  destruct H as [_ Hv]. apply Hv; [exact Hi|exact Hj|left; exact Hi].
Qed.

Lemma gak_Kval s1 s2 sigma :
  cygak.gak s1 s2 sigma = Kval sigma s1 s2 (length s1) (length s2).
Proof. unfold cygak.gak. apply log_grid_Kval; lia. Qed.

Lemma Kval_nonneg sigma s1 s2 i j : 0 <= Kval sigma s1 s2 i j.
Proof.
  revert i j. apply grid_ind.
  - intros [|j]; simpl; lra.
  - intros i. simpl. lra.
  - intros i j H1 H2 H3. rewrite Kval_S_S.
    pose proof (local_kernel_pos sigma (nth i s1 []) (nth j s2 [])).
    apply Rmult_le_pos; lra.
Qed.

Lemma Kval_interior_pos sigma s1 s2 i j : 0 < Kval sigma s1 s2 (S i) (S j).
Proof.
  revert i j.
  assert (Hstep : forall i j,
             0 < Kval sigma s1 s2 i (S j) + Kval sigma s1 s2 (S i) j
                 + Kval sigma s1 s2 i j ->
             0 < Kval sigma s1 s2 (S i) (S j)).
  { intros i j H. rewrite Kval_S_S.
    pose proof (local_kernel_pos sigma (nth i s1 []) (nth j s2 [])).
    apply Rmult_lt_0_compat; lra. }
  induction i as [|i IHi]; intros j.
  - induction j as [|j IHj]; apply Hstep.
    + simpl. lra.
    + pose proof (Kval_nonneg sigma s1 s2 0 (S (S j))).
      pose proof (Kval_nonneg sigma s1 s2 0 (S j)). lra.
  - apply Hstep. specialize (IHi j).
    pose proof (Kval_nonneg sigma s1 s2 (S (S i)) j).
    pose proof (Kval_nonneg sigma s1 s2 (S i) j). lra.
Qed.

Lemma gak_pos s1 s2 sigma :
  s1 <> [] -> s2 <> [] -> 0 < cygak.gak s1 s2 sigma.
Proof.
  intros H1 H2. rewrite gak_Kval.
  destruct s1 as [|p s1]; [congruence|]. destruct s2 as [|q s2]; [congruence|].
  apply Kval_interior_pos.
Qed.

Lemma Kval_sym sigma s1 s2 i j :
  Kval sigma s1 s2 i j = Kval sigma s2 s1 j i.
Proof.
  revert i j. apply grid_ind.
  - intros [|j]; reflexivity.
  - intros i. reflexivity.
  - intros i j H1 H2 H3. rewrite !Kval_S_S, H1, H2, H3, local_kernel_sym.
    ring.
Qed.

Lemma gak_sym s1 s2 sigma : cygak.gak s1 s2 sigma = cygak.gak s2 s1 sigma.
Proof. rewrite !gak_Kval. apply Kval_sym. Qed.

Lemma normalized_self s sigma : s <> [] -> cygak.normalized s s sigma = 1.
Proof.
  intros Hs. unfold cygak.normalized.
  pose proof (gak_pos s s sigma Hs Hs) as Hk.
  rewrite sqrt_square by lra. apply Rdiv_diag. lra.
Qed.

(** ** Positive definiteness of the alignment kernel *)

Lemma lsum_ext_in {A} (F G : A -> R) l :
  (forall a, In a l -> F a = G a) -> lsum F l = lsum G l.
Proof.
  induction l as [|a l IH]; intros H; [reflexivity|]. simpl.
  rewrite (H a) by (left; reflexivity). rewrite IH; [reflexivity|].
  intros b Hb. apply H. right. exact Hb.
Qed.

Lemma lsum_plus {A} (F G : A -> R) l :
  lsum (fun a => F a + G a) l = lsum F l + lsum G l.
Proof. induction l as [|a l IH]; simpl; [ring|]. rewrite IH. ring. Qed.

Lemma lsum_scal {A} (c : R) (F : A -> R) l :
  lsum (fun a => c * F a) l = c * lsum F l.
Proof. induction l as [|a l IH]; simpl; [ring|]. rewrite IH. ring. Qed.

Lemma lsum_app {A} (F : A -> R) l1 l2 :
  lsum F (l1 ++ l2) = lsum F l1 + lsum F l2.
Proof. induction l1 as [|a l IH]; simpl; [ring|]. rewrite IH. ring. Qed.

Lemma lsum_map {A B} (F : B -> R) (g : A -> B) l :
  lsum F (map g l) = lsum (fun a => F (g a)) l.
Proof. induction l as [|a l IH]; simpl; [reflexivity|]. rewrite IH. reflexivity. Qed.

Lemma lsum_cv {A} (F : nat -> A -> R) (G : A -> R) l :
  (forall a, In a l -> Un_cv (fun n => F n a) (G a)) ->
  Un_cv (fun n => lsum (F n) l) (lsum G l).
Proof.
  induction l as [|a l IH]; intros H; simpl.
  - intros eps Heps. exists O. intros n _. unfold Rdist.
    rewrite Rminus_diag, Rabs_R0. exact Heps.
  - apply CV_plus.
    + apply H. left. reflexivity.
    + apply IH. intros b Hb. apply H. right. exact Hb.
Qed.

Lemma bilin_ext_in {X} (k k' : X -> X -> R) l1 l2 :
  (forall p q, In p l1 -> In q l2 -> k (snd p) (snd q) = k' (snd p) (snd q)) ->
  bilin k l1 l2 = bilin k' l1 l2.
Proof.
  intros H. unfold bilin. apply lsum_ext_in. intros p Hp.
  apply lsum_ext_in. intros q Hq. rewrite (H p q Hp Hq). reflexivity.
Qed.

Lemma bilin_plus {X} (k k' : X -> X -> R) l1 l2 :
  bilin (fun x y => k x y + k' x y) l1 l2 = bilin k l1 l2 + bilin k' l1 l2.
Proof.
  unfold bilin. rewrite <- lsum_plus. apply lsum_ext_in. intros p _.
  rewrite <- lsum_plus. apply lsum_ext_in. intros q _. ring.
Qed.

Lemma bilin_scal {X} (c : R) (k : X -> X -> R) l1 l2 :
  bilin (fun x y => c * k x y) l1 l2 = c * bilin k l1 l2.
Proof.
  unfold bilin. rewrite <- lsum_scal. apply lsum_ext_in. intros p _.
  rewrite <- lsum_scal. apply lsum_ext_in. intros q _. ring.
Qed.

Lemma bilin_app_l {X} (k : X -> X -> R) l1 l1' l2 :
  bilin k (l1 ++ l1') l2 = bilin k l1 l2 + bilin k l1' l2.
Proof. unfold bilin. apply lsum_app. Qed.

Lemma bilin_app_r {X} (k : X -> X -> R) l1 l2 l2' :
  bilin k l1 (l2 ++ l2') = bilin k l1 l2 + bilin k l1 l2'.
Proof.
  unfold bilin. rewrite <- lsum_plus. apply lsum_ext_in. intros p _.
  apply lsum_app.
Qed.

Lemma bilin_map {X Y} (k : X -> X -> R) (g1 g2 : R * Y -> R * X) l1 l2 :
  bilin k (map g1 l1) (map g2 l2) =
  lsum (fun p => lsum (fun q => fst (g1 p) * fst (g2 q)
                                * k (snd (g1 p)) (snd (g2 q))) l2) l1.
Proof.
  unfold bilin. rewrite lsum_map. apply lsum_ext_in. intros p _.
  apply lsum_map.
Qed.

Lemma bilin_map_l {X Y} (k : X -> X -> R) (g : R * Y -> R * X) l1 l2 :
  bilin k (map g l1) l2 =
  lsum (fun p => lsum (fun q => fst (g p) * fst q
                                * k (snd (g p)) (snd q)) l2) l1.
Proof. unfold bilin. apply lsum_map. Qed.

Lemma bilin_map_r {X Y} (k : X -> X -> R) (g : R * Y -> R * X) l1 l2 :
  bilin k l1 (map g l2) =
  lsum (fun p => lsum (fun q => fst p * fst (g q)
                                * k (snd p) (snd (g q))) l2) l1.
Proof.
  unfold bilin. apply lsum_ext_in. intros p _. apply lsum_map.
Qed.

Lemma bilin_cv {X} (k : nat -> X -> X -> R) (k' : X -> X -> R) l1 l2 :
  (forall p q, In p l1 -> In q l2 ->
     Un_cv (fun n => k n (snd p) (snd q)) (k' (snd p) (snd q))) ->
  Un_cv (fun n => bilin (k n) l1 l2) (bilin k' l1 l2).
Proof.
  intros H. unfold bilin.
  apply (lsum_cv (fun n p => lsum (fun q => fst p * fst q * k n (snd p) (snd q)) l2)).
  intros p Hp.
  apply (lsum_cv (fun n q => fst p * fst q * k n (snd p) (snd q))).
  intros q Hq.
  apply (CV_mult (fun _ => fst p * fst q) (fun n => k n (snd p) (snd q))).
  - intros eps Heps. exists O. intros n _. unfold Rdist.
    rewrite Rminus_diag, Rabs_R0. exact Heps.
  - apply H; assumption.
Qed.

Lemma bilin_one {X} (l1 l2 : list (R * X)) :
  bilin (fun _ _ => 1) l1 l2 = lsum fst l1 * lsum fst l2.
Proof.
  unfold bilin. rewrite (Rmult_comm (lsum fst l1)), <- lsum_scal.
  apply lsum_ext_in. intros p _.
  rewrite Rmult_comm, <- lsum_scal. apply lsum_ext_in. intros q _. ring.
Qed.

(** *** Closure of positive definite kernels *)

Lemma PD_ext_on {X} (P : X -> Prop) (k k' : X -> X -> R) :
  (forall x y, P x -> P y -> k x y = k' x y) -> PD P k -> PD P k'.
Proof.
  intros E H l Hl. rewrite <- (bilin_ext_in k k'); [apply H, Hl|].
  rewrite List.Forall_forall in Hl. intros p q Hp Hq. apply E; auto.
Qed.

Lemma PD_plus {X} (P : X -> Prop) (k k' : X -> X -> R) :
  PD P k -> PD P k' -> PD P (fun x y => k x y + k' x y).
Proof.
  intros H H' l Hl. rewrite bilin_plus.
  specialize (H l Hl). specialize (H' l Hl). lra.
Qed.

Lemma PD_scal {X} (P : X -> Prop) (c : R) (k : X -> X -> R) :
  0 <= c -> PD P k -> PD P (fun x y => c * k x y).
Proof.
  intros Hc H l Hl. rewrite bilin_scal. apply Rmult_le_pos; auto.
Qed.

Lemma PD_one {X} (P : X -> Prop) : PD P (fun _ _ => 1).
Proof.
  intros l _. rewrite bilin_one. apply Rle_0_sqr.
Qed.

Lemma PD_lim {X} (P : X -> Prop) (k : nat -> X -> X -> R) (k' : X -> X -> R) :
  (forall x y, P x -> P y -> Un_cv (fun n => k n x y) (k' x y)) ->
  (forall n, PD P (k n)) -> PD P k'.
Proof.
  intros Hcv Hpd l Hl.
  apply Rle_cv_lim with (Un := fun _ : nat => 0)
                        (Vn := fun n => bilin (k n) l l).
  - intros n. apply Hpd, Hl.
  - intros eps Heps. exists O. intros n _. unfold Rdist.
    rewrite Rminus_diag, Rabs_R0. exact Heps.
  - apply bilin_cv. rewrite List.Forall_forall in Hl.
    intros p q Hp Hq. apply Hcv; auto.
Qed.

(** Every point counted twice, once as itself and once through [h]. *)
Lemma PD_expand {X} (P : X -> Prop) (k : X -> X -> R) (h : X -> X) :
  (forall x, P x -> P (h x)) -> PD P k ->
  PD P (fun x y => k x y + k (h x) y + k x (h y) + k (h x) (h y)).
Proof.
  intros Hh H l Hl.
  set (l' := map (fun p : R * X => (fst p, h (snd p))) l).
  assert (E : bilin (fun x y => k x y + k (h x) y + k x (h y) + k (h x) (h y))
                l l = bilin k (l ++ l') (l ++ l')).
  { rewrite bilin_app_l, !bilin_app_r, !bilin_plus.
    unfold l'.
    rewrite bilin_map, bilin_map_l, bilin_map_r. unfold bilin.
    cbn [fst snd]. ring. }
  rewrite E. apply H. apply Forall_app. split; [exact Hl|].
  unfold l'. rewrite List.Forall_forall in Hl |- *. intros p Hp.
  apply List.in_map_iff in Hp as (q & <- & Hq). simpl. apply Hh, Hl, Hq.
Qed.

Lemma cv_const (c : R) : Un_cv (fun _ : nat => c) c.
Proof.
  intros eps Heps. exists O. intros n _. unfold Rdist.
  rewrite Rminus_diag, Rabs_R0. exact Heps.
Qed.

(** *** Closure of Schur multipliers *)

Lemma Schur_ext_on {X} (P : X -> Prop) (k k' : X -> X -> R) :
  (forall x y, P x -> P y -> k x y = k' x y) -> Schur P k -> Schur P k'.
Proof.
  intros E H Y Q f M Hf HM.
  apply (PD_ext_on Q (fun y y' => k (f y) (f y') * M y y')).
  - intros y y' Hy Hy'. rewrite E by auto. reflexivity.
  - apply H; assumption.
Qed.

Lemma Schur_rank1 {X} (P : X -> Prop) (h : X -> R) :
  Schur P (fun x y => h x * h y).
Proof.
  intros Y Q f M Hf HM l Hl.
  set (l' := map (fun p : R * Y => (fst p * h (f (snd p)), snd p)) l).
  assert (E : bilin (fun y y' => h (f y) * h (f y') * M y y') l l
              = bilin M l' l').
  { unfold l'. rewrite bilin_map. unfold bilin.
    apply lsum_ext_in. intros p _. apply lsum_ext_in. intros q _.
    cbn [fst snd]. ring. }
  rewrite E. apply HM. unfold l'.
  rewrite List.Forall_forall in Hl |- *. intros p Hp.
  apply List.in_map_iff in Hp as (q & <- & Hq). simpl. apply Hl, Hq.
Qed.

Lemma Schur_plus {X} (P : X -> Prop) (k k' : X -> X -> R) :
  Schur P k -> Schur P k' -> Schur P (fun x y => k x y + k' x y).
Proof.
  intros H H' Y Q f M Hf HM.
  apply (PD_ext_on Q (fun y y' => k (f y) (f y') * M y y'
                                  + k' (f y) (f y') * M y y')).
  - intros. ring.
  - apply PD_plus; [apply H|apply H']; assumption.
Qed.

Lemma Schur_scal {X} (P : X -> Prop) (c : R) (k : X -> X -> R) :
  0 <= c -> Schur P k -> Schur P (fun x y => c * k x y).
Proof.
  intros Hc H Y Q f M Hf HM.
  apply (PD_ext_on Q (fun y y' => c * (k (f y) (f y') * M y y'))).
  - intros. ring.
  - apply PD_scal; [exact Hc|]. apply H; assumption.
Qed.

Lemma Schur_mult {X} (P : X -> Prop) (k k' : X -> X -> R) :
  Schur P k -> Schur P k' -> Schur P (fun x y => k x y * k' x y).
Proof.
  intros H H' Y Q f M Hf HM.
  apply (PD_ext_on Q (fun y y' => k (f y) (f y')
                                  * (k' (f y) (f y') * M y y'))).
  - intros. ring.
  - apply (H Y Q f); [exact Hf|]. apply H'; assumption.
Qed.

Lemma Schur_lim {X} (P : X -> Prop) (k : nat -> X -> X -> R)
  (k' : X -> X -> R) :
  (forall x y, P x -> P y -> Un_cv (fun n => k n x y) (k' x y)) ->
  (forall n, Schur P (k n)) -> Schur P k'.
Proof.
  intros Hcv H Y Q f M Hf HM.
  apply (PD_lim Q (fun n y y' => k n (f y) (f y') * M y y')).
  - intros y y' Hy Hy'.
    apply (CV_mult (fun n => k n (f y) (f y')) (fun _ => M y y')).
    + apply Hcv; auto.
    + apply cv_const.
  - intros n. apply H; assumption.
Qed.

Lemma Schur_pullback {X Z} (P : X -> Prop) (PZ : Z -> Prop) (g : Z -> X)
  (k : X -> X -> R) :
  (forall z, PZ z -> P (g z)) -> Schur P k ->
  Schur PZ (fun z z' => k (g z) (g z')).
Proof.
  intros Hg H Y Q f M Hf HM.
  apply (H Y Q (fun y => g (f y)) M); auto.
Qed.

Lemma Schur_PD {X} (P : X -> Prop) (k : X -> X -> R) : Schur P k -> PD P k.
Proof.
  intros H.
  apply (PD_ext_on P (fun x y => k x y * 1)).
  - intros. ring.
  - apply (H X P (fun x => x) (fun _ _ => 1)); [auto|apply PD_one].
Qed.

Lemma Schur_const {X} (P : X -> Prop) (c : R) :
  0 <= c -> Schur P (fun _ _ => c).
Proof.
  intros Hc.
  apply (Schur_ext_on P (fun _ _ => sqrt c * sqrt c)).
  - intros. apply sqrt_sqrt, Hc.
  - apply (Schur_rank1 P (fun _ => sqrt c)).
Qed.

Lemma Schur_pow {X} (P : X -> Prop) (k : X -> X -> R) (n : nat) :
  Schur P k -> Schur P (fun x y => k x y ^ n).
Proof.
  intros H. induction n as [|n IH]; simpl.
  - apply Schur_const. lra.
  - apply Schur_mult; assumption.
Qed.

Lemma Schur_sum {X} (P : X -> Prop) (F : nat -> X -> X -> R) (N : nat) :
  (forall i, Schur P (F i)) ->
  Schur P (fun x y => sum_f_R0 (fun i => F i x y) N).
Proof.
  intros H. induction N as [|N IH]; simpl.
  - apply H.
  - apply Schur_plus; [exact IH|apply H].
Qed.

Lemma PD_sum {X} (P : X -> Prop) (F : nat -> X -> X -> R) (N : nat) :
  (forall i, PD P (F i)) ->
  PD P (fun x y => sum_f_R0 (fun i => F i x y) N).
Proof.
  intros H. induction N as [|N IH]; simpl.
  - apply H.
  - apply PD_plus; [exact IH|apply H].
Qed.

(** *** The Gaussian kernel *)

Lemma dot_head_tail u v : dot u v = hd 0 u * hd 0 v + dot (tl u) (tl v).
Proof.
  destruct u as [|a u], v as [|b v]; simpl; try ring.
  destruct u; simpl; ring.
Qed.

Lemma Schur_dot d : Schur (dim d) dot.
Proof.
  induction d as [|d IH].
  - apply (Schur_ext_on (dim 0) (fun _ _ => 0)).
    + intros x y Hx _. destruct x; [reflexivity|discriminate].
    + apply Schur_const. lra.
  - apply (Schur_ext_on (dim (S d))
             (fun u v => hd 0 u * hd 0 v + dot (tl u) (tl v))).
    + intros u v _ _. symmetry. apply dot_head_tail.
    + apply Schur_plus.
      * apply (Schur_rank1 (dim (S d)) (hd 0)).
      * apply (Schur_pullback (dim d) (dim (S d)) (@tl R) dot); [|exact IH].
        intros z Hz. destruct z; [discriminate|]. unfold dim in *.
        simpl in *. lia.
Qed.

Lemma sqdist_dot u v :
  length u = length v -> sqdist u v = dot u u + dot v v - 2 * dot u v.
Proof.
  revert v. induction u as [|a u IH]; intros [|b v] Hl; try discriminate.
  - simpl. ring.
  - simpl. rewrite IH by (simpl in Hl; lia). ring.
Qed.

Lemma exp_series_cv x :
  Un_cv (fun n => sum_f_R0 (fun i => / INR (fact i) * x ^ i) n) (exp x).
Proof.
  unfold exp. destruct (exist_exp x) as [l Hl]. simpl. exact Hl.
Qed.

Lemma Schur_exp_dot d c :
  0 <= c -> Schur (dim d) (fun u v => exp (c * dot u v)).
Proof.
  intros Hc.
  apply (Schur_lim (dim d)
           (fun n u v =>
              sum_f_R0 (fun i => / INR (fact i) * (c * dot u v) ^ i) n)).
  - intros u v _ _. apply exp_series_cv.
  - intros n.
    apply (Schur_sum (dim d)
             (fun i u v => / INR (fact i) * (c * dot u v) ^ i)).
    intros i. apply Schur_scal.
    + left. apply Rinv_0_lt_compat, INR_fact_lt_0.
    + apply (Schur_pow (dim d) (fun u v => c * dot u v)).
      apply Schur_scal; [exact Hc|apply Schur_dot].
Qed.

Lemma Schur_gauss d sigma : Schur (dim d) (cygak.gauss sigma).
Proof.
  set (s := / (2 * (sigma * sigma))).
  assert (Hs : 0 <= s) by (apply Rinv_nonneg; nra).
  apply (Schur_ext_on (dim d)
           (fun u v => exp (- s * dot u u) * exp (- s * dot v v)
                       * exp (2 * s * dot u v))).
  - intros u v Hu Hv. unfold cygak.gauss. rewrite <- !exp_plus. f_equal.
    rewrite sqdist_dot by (unfold dim in *; congruence).
    unfold Rdiv. fold s. ring.
  - apply Schur_mult.
    + apply (Schur_rank1 (dim d) (fun u => exp (- s * dot u u))).
    + apply Schur_exp_dot. lra.
Qed.

Lemma chi_range sigma u v : 0 < chi sigma u v <= / 2.
Proof.
  unfold chi. destruct (gauss_range sigma u v) as [H0 H1]. lra.
Qed.

Lemma chi_local_kernel sigma u v :
  cygak.local_kernel sigma u v = chi sigma u v / (1 - chi sigma u v).
Proof.
  unfold chi, cygak.local_kernel.
  destruct (gauss_range sigma u v) as [H0 H1].
  set (g := cygak.gauss sigma u v) in *. field. repeat split; lra.
Qed.

Lemma Schur_chi d sigma : Schur (dim d) (chi sigma).
Proof.
  apply (Schur_ext_on (dim d) (fun u v => / 2 * cygak.gauss sigma u v)).
  - intros u v _ _. unfold chi. lra.
  - apply Schur_scal; [lra|apply Schur_gauss].
Qed.

Lemma In_removelast {A} (a : A) (l : list A) :
  In a (removelast l) -> In a l.
Proof.
  induction l as [|b l IH]; [intros []|].
  destruct l as [|c l]; [intros []|].
  cbn [removelast]. intros [<-|H]; [left; reflexivity|].
  right. apply IH. exact H.
Qed.

Lemma dseries_removelast d s : dseries d s -> dseries d (removelast s).
Proof.
  unfold dseries. rewrite !List.Forall_forall. intros H p Hp.
  apply H, In_removelast, Hp.
Qed.

Lemma dseries_last d s : s <> [] -> dseries d s -> dim d (List.last s (repeat 0 d)).
Proof.
  intros Hs H. unfold dseries in H. rewrite List.Forall_forall in H.
  apply H. destruct (exists_last Hs) as (s' & a & ->).
  rewrite List.last_last. apply List.in_or_app. right. left. reflexivity.
Qed.

Lemma last_default_irrelevant {A} (l : list A) (d d' : A) :
  l <> [] -> List.last l d = List.last l d'.
Proof.
  intros Hl. destruct (exists_last Hl) as (l' & a & ->).
  rewrite !List.last_last. reflexivity.
Qed.

(** Every term of the stretching sum is positive definite. *)
Lemma PD_stretch_sum d sigma p : PD (dseries d) (stretch_sum sigma p).
Proof.
  induction p as [|p IH]; cbn [stretch_sum].
  - apply Schur_PD. apply (Schur_rank1 (dseries d) empty_ind).
  - set (U := fun x y : series =>
                stretch_sum sigma p x y
                + stretch_sum sigma p (removelast x) y
                + stretch_sum sigma p x (removelast y)
                + stretch_sum sigma p (removelast x) (removelast y)).
    assert (HU : PD (dseries d) U).
    { apply (PD_expand (dseries d) (stretch_sum sigma p) (@removelast point));
        [apply dseries_removelast|exact IH]. }
    set (lst := fun x : series => List.last x (repeat 0 d)).
    assert (Hlst : forall x, dseries d x -> dim d (lst x)).
    { intros x Hx. destruct x as [|a x].
      - unfold lst, dim. simpl. apply repeat_length.
      - apply dseries_last; [discriminate|exact Hx]. }
    assert (H1 : PD (dseries d) (fun x y => chi sigma (lst x) (lst y) * U x y)).
    { apply (Schur_chi d sigma series (dseries d) lst U Hlst HU). }
    assert (H2 : PD (dseries d)
                   (fun x y => nonempty_ind x * nonempty_ind y
                               * (chi sigma (lst x) (lst y) * U x y))).
    { apply (Schur_rank1 (dseries d) nonempty_ind series (dseries d)
               (fun x => x)
               (fun x y => chi sigma (lst x) (lst y) * U x y));
        [auto|exact H1]. }
    apply (PD_ext_on (dseries d) _ _ ) with (2 := H2).
    intros x y _ _. fold (U x y).
    destruct x as [|a x]; [simpl; ring|].
    destruct y as [|b y]; [simpl; ring|].
    unfold lst.
    rewrite (last_default_irrelevant (a :: x) (repeat 0 d) []) by discriminate.
    rewrite (last_default_irrelevant (b :: y) (repeat 0 d) []) by discriminate.
    reflexivity.
Qed.

(** *** The stretching sums add up to the kernel *)

(** A sequence driven by a convergent one through a contraction
    converges to the fixed point. *)
Lemma contraction_cv (q V : R) (u v : nat -> R) :
  0 <= q < 1 -> Un_cv v V ->
  (forall N, u (S N) = q * (u N + v N)) ->
  Un_cv u (q * V / (1 - q)).
Proof.
  intros [Hq0 Hq1] Hv Hu. set (L := q * V / (1 - q)).
  assert (HL : q * (L + V) = L) by (unfold L; field; lra).
  intros eps Heps.
  assert (Hdelta : eps * (1 - q) / 2 > 0) by nra.
  destruct (Hv _ Hdelta) as [N0 HN0].
  set (A := Rabs (u N0 - L)).
  assert (HA : 0 <= A) by apply Rabs_pos.
  assert (Hbound : forall m, Rabs (u (N0 + m)%nat - L) <= q ^ m * A + eps / 2).
  { induction m as [|m IH].
    - rewrite Nat.add_0_r. fold A. simpl. lra.
    - rewrite Nat.add_succ_r, Hu.
      replace (q * (u (N0 + m)%nat + v (N0 + m)%nat) - L)
        with (q * (u (N0 + m)%nat - L) + q * (v (N0 + m)%nat - V)) by lra.
      eapply Rle_trans; [apply Rabs_triang|].
      rewrite !Rabs_mult, (Rabs_pos_eq q Hq0).
      assert (Hvm : Rabs (v (N0 + m)%nat - V) < eps * (1 - q) / 2).
      { apply HN0. lia. }
      assert (Hqm : 0 <= q ^ m) by (apply pow_le; exact Hq0).
      simpl. nra. }
  assert (Hsmall : 0 < eps / (2 * (A + 1))).
  { apply Rdiv_lt_0_compat; lra. }
  destruct (pow_lt_1_zero q) with (y := eps / (2 * (A + 1))) as [m0 Hm0];
    [rewrite Rabs_pos_eq; lra|exact Hsmall|].
  exists (N0 + m0)%nat. intros n Hn. unfold Rdist.
  replace n with (N0 + (n - N0))%nat by lia.
  eapply Rle_lt_trans; [apply Hbound|].
  assert (Hp : Rabs (q ^ (n - N0)) < eps / (2 * (A + 1))) by (apply Hm0; lia).
  assert (Hqm : 0 <= q ^ (n - N0)) by (apply pow_le; exact Hq0).
  rewrite Rabs_pos_eq in Hp by exact Hqm.
  assert (Hx : q ^ (n - N0) * (A + 1) < eps / 2).
  { apply Rmult_lt_reg_r with (/ (A + 1)); [apply Rinv_0_lt_compat; lra|].
    rewrite Rmult_assoc, Rinv_r, Rmult_1_r by lra.
    replace (eps / 2 * / (A + 1)) with (eps / (2 * (A + 1)))
      by (field; lra).
    exact Hp. }
  nra.
Qed.

Lemma firstn_S_snoc {A} (dflt : A) (l : list A) (i : nat) :
  (i < length l)%nat -> firstn (S i) l = firstn i l ++ [nth i l dflt].
Proof.
  revert i. induction l as [|a l IH]; intros i Hi; [simpl in Hi; lia|].
  destruct i as [|i]; [reflexivity|].
  cbn [firstn nth app]. f_equal. apply IH. simpl in Hi. lia.
Qed.

Lemma stretch_sum_nil_l sigma p y :
  stretch_sum sigma (S p) [] y = 0.
Proof. simpl. ring. Qed.

Lemma stretch_sum_nil_r sigma p x :
  stretch_sum sigma (S p) x [] = 0.
Proof. cbn [stretch_sum nonempty_ind]. ring. Qed.

Lemma stretch_sum_snoc sigma p x y a b :
  stretch_sum sigma (S p) (x ++ [a]) (y ++ [b]) =
  chi sigma a b
  * (stretch_sum sigma p (x ++ [a]) (y ++ [b])
     + stretch_sum sigma p x (y ++ [b])
     + stretch_sum sigma p (x ++ [a]) y
     + stretch_sum sigma p x y).
Proof.
  cbn [stretch_sum]. rewrite !List.last_last, !List.removelast_last.
  assert (Ex : nonempty_ind (x ++ [a]) = 1) by (destruct x; reflexivity).
  assert (Ey : nonempty_ind (y ++ [b]) = 1) by (destruct y; reflexivity).
  rewrite Ex, Ey. ring.
Qed.

Lemma sum_only_first (f : nat -> R) (N : nat) :
  (forall p, f (S p) = 0) -> sum_f_R0 f N = f O.
Proof.
  intros H. induction N as [|N IH]; [reflexivity|].
  simpl. rewrite IH, H. ring.
Qed.

Lemma sum_shift_contraction (f b : nat -> R) (q : R) :
  f O = 0 -> (forall p, f (S p) = q * (f p + b p)) ->
  forall N, sum_f_R0 f (S N) = q * (sum_f_R0 f N + sum_f_R0 b N).
Proof.
  intros H0 Hs. induction N as [|N IH].
  - simpl. rewrite Hs, H0. ring.
  - simpl in IH |- *. rewrite (Hs (S N)). lra.
Qed.

Lemma stretch_partial_cv sigma (x y : series) : forall i j,
  (i <= length x)%nat -> (j <= length y)%nat ->
  Un_cv (fun N => sum_f_R0
                    (fun p => stretch_sum sigma p (firstn i x) (firstn j y)) N)
    (Kval sigma x y i j).
Proof.
  apply (grid_ind (fun i j =>
    (i <= length x)%nat -> (j <= length y)%nat ->
    Un_cv (fun N => sum_f_R0
                      (fun p => stretch_sum sigma p (firstn i x) (firstn j y)) N)
      (Kval sigma x y i j))).
  - intros j _ Hj. cbn [firstn].
    assert (E : forall N,
               sum_f_R0 (fun p => stretch_sum sigma p [] (firstn j y)) N
               = Kval sigma x y 0 j).
    { intros N. rewrite sum_only_first by (intros; apply stretch_sum_nil_l).
      destruct j as [|j]; [simpl; ring|].
      destruct y as [|b y]; [simpl in Hj; lia|]. simpl. ring. }
    intros eps Heps. exists O. intros n _. rewrite E. unfold Rdist.
    rewrite Rminus_diag, Rabs_R0. exact Heps.
  - intros i Hi _. cbn [firstn].
    assert (E : forall N,
               sum_f_R0 (fun p => stretch_sum sigma p (firstn (S i) x) []) N
               = Kval sigma x y (S i) 0).
    { intros N. rewrite sum_only_first by (intros; apply stretch_sum_nil_r).
      destruct x as [|a x]; [simpl in Hi; lia|]. simpl. ring. }
    intros eps Heps. exists O. intros n _. rewrite E. unfold Rdist.
    rewrite Rminus_diag, Rabs_R0. exact Heps.
  - intros i j IH1 IH2 IH3 Hi Hj. cbv beta in IH1, IH2, IH3 |- *.
    specialize (IH1 ltac:(lia) Hj). specialize (IH2 Hi ltac:(lia)).
    specialize (IH3 ltac:(lia) ltac:(lia)).
    rewrite (@firstn_S_snoc point [] x i) in IH2 |- * by lia.
    rewrite (@firstn_S_snoc point [] y j) in IH1 |- * by lia.
    set (a := nth i x []) in *. set (b := nth j y []) in *.
    set (X' := firstn i x ++ [a]) in *. set (Y' := firstn j y ++ [b]) in *.
    set (u := fun N => sum_f_R0 (fun p => stretch_sum sigma p X' Y') N).
    set (v := fun N =>
                sum_f_R0 (fun p => stretch_sum sigma p (firstn i x) Y') N
                + sum_f_R0 (fun p => stretch_sum sigma p X' (firstn j y)) N
                + sum_f_R0
                    (fun p => stretch_sum sigma p (firstn i x) (firstn j y)) N).
    destruct (chi_range sigma a b) as [Hc0 Hc1].
    assert (Hu : forall N, u (S N) = chi sigma a b * (u N + v N)).
    { intros N. unfold u, v.
      rewrite (sum_shift_contraction
                 (fun p => stretch_sum sigma p X' Y')
                 (fun p => stretch_sum sigma p (firstn i x) Y'
                           + stretch_sum sigma p X' (firstn j y)
                           + stretch_sum sigma p (firstn i x) (firstn j y))
                 (chi sigma a b)).
      - rewrite !plus_sum. reflexivity.
      - unfold X'. cbn [stretch_sum]. destruct (firstn i x); simpl; ring.
      - intros p. unfold X', Y'. rewrite stretch_sum_snoc. ring. }
    assert (Hv : Un_cv v (Kval sigma x y i (S j) + Kval sigma x y (S i) j
                          + Kval sigma x y i j)).
    { unfold v. apply CV_plus; [apply CV_plus|]; assumption. }
    assert (Hq : 0 <= chi sigma a b < 1) by lra.
    pose proof (contraction_cv (chi sigma a b) _ u v Hq Hv Hu) as Hcv.
    rewrite Kval_S_S. fold a b.
    rewrite chi_local_kernel.
    replace ((Kval sigma x y i (S j) + Kval sigma x y (S i) j
              + Kval sigma x y i j)
             * (chi sigma a b / (1 - chi sigma a b)))
      with (chi sigma a b
            * (Kval sigma x y i (S j) + Kval sigma x y (S i) j
               + Kval sigma x y i j) / (1 - chi sigma a b))
      by (field; lra).
    exact Hcv.
Qed.

(** The raw kernel is positive definite on series of points of one
    dimension. *)
Lemma PD_Kfun d sigma : PD (dseries d) (Kfun sigma).
Proof.
  apply (PD_lim (dseries d)
           (fun N x y => sum_f_R0 (fun p => stretch_sum sigma p x y) N)).
  - intros x y _ _. unfold Kfun.
    pose proof (stretch_partial_cv sigma x y (length x) (length y)
                  (le_n _) (le_n _)) as H.
    rewrite !firstn_all in H. exact H.
  - intros N.
    apply (PD_sum (dseries d) (fun p x y => stretch_sum sigma p x y)).
    intros p. apply PD_stretch_sum.
Qed.

(** Cauchy-Schwarz for the raw kernel. *)
Lemma Kfun_cauchy_schwarz d sigma x y :
  dseries d x -> dseries d y ->
  Kfun sigma x y * Kfun sigma x y <= Kfun sigma x x * Kfun sigma y y.
Proof.
  intros Hx Hy.
  assert (Hsym : Kfun sigma y x = Kfun sigma x y).
  { unfold Kfun. apply Kval_sym. }
  assert (Hq : forall a b,
             0 <= a * a * Kfun sigma x x + 2 * (a * b) * Kfun sigma x y
                  + b * b * Kfun sigma y y).
  { intros a b.
    pose proof (PD_Kfun d sigma [(a, x); (b, y)]) as H.
    unfold bilin in H. cbn [lsum fst snd] in H. rewrite Hsym in H.
    assert (HF : Forall (fun p : R * series => dseries d (snd p))
                   [(a, x); (b, y)]).
    { repeat constructor; assumption. }
    specialize (H HF). lra. }
  assert (Hyy : 0 <= Kfun sigma y y) by apply Kval_nonneg.
  assert (Hxx : 0 <= Kfun sigma x x) by apply Kval_nonneg.
  set (A := Kfun sigma x x) in *. set (B := Kfun sigma x y) in *.
  set (C := Kfun sigma y y) in *.
  destruct (Rle_or_lt (B * B) (A * C)) as [Hle|Hlt]; [exact Hle|exfalso].
  destruct Hyy as [Hyy|Hyy].
  - pose proof (Hq C (- B)) as H.
    assert (0 < C * (B * B - A * C)) by (apply Rmult_lt_0_compat; lra).
    lra.
  - rewrite <- Hyy in *.
    assert (HB : B <> 0) by (intros E; rewrite E in Hlt; lra).
    pose proof (Hq B (- (A + 1))) as H.
    assert (0 < B * B) by (apply Rsqr_pos_lt in HB; exact HB).
    assert (0 <= B * B * A) by (apply Rmult_le_pos; lra).
    lra.
Qed.

(** C5: for series of equal feature dimension and [sigma > 0], [gak]
    returns the normalised value
    [K(s1,s2) / sqrt(K(s1,s1) * K(s2,s2))] of the kernel grid, this value
    lies in (0, 1], and [gak(s, s, sigma)] is 1. *)
Theorem gak_normalized_in_unit_interval
  (s1 s2 : raw_series) (sigma : R) (d : nat) :
  let a := npy2d_time_series s1 in
  let b := npy2d_time_series s2 in
  a <> [] -> b <> [] -> dseries d a -> dseries d b -> 0 < sigma ->
  gak s1 s2 sigma
  = Ok (Kfun sigma a b / sqrt (Kfun sigma a a * Kfun sigma b b)) /\
  0 < Kfun sigma a b / sqrt (Kfun sigma a a * Kfun sigma b b) <= 1 /\
  gak s1 s1 sigma = Ok 1.
Proof.
  intros a b Ha Hb Hda Hdb Hs. unfold gak, cygak.normalized_gak.
  fold a b. destruct (Rle_dec sigma 0) as [?|_]; [lra|].
  split; [|split].
  - unfold cygak.normalized. rewrite !gak_Kval. reflexivity.
  - pose proof (gak_pos a b sigma Ha Hb) as Hab.
    pose proof (gak_pos a a sigma Ha Ha) as Haa.
    pose proof (gak_pos b b sigma Hb Hb) as Hbb.
    rewrite !gak_Kval in Hab, Haa, Hbb.
    fold (Kfun sigma a b) in Hab. fold (Kfun sigma a a) in Haa.
    fold (Kfun sigma b b) in Hbb.
    assert (Hroot : 0 < sqrt (Kfun sigma a a * Kfun sigma b b)).
    { apply sqrt_lt_R0, Rmult_lt_0_compat; assumption. }
    split; [apply Rdiv_lt_0_compat; assumption|].
    apply Rmult_le_reg_r with (sqrt (Kfun sigma a a * Kfun sigma b b));
      [exact Hroot|].
    unfold Rdiv. rewrite Rmult_assoc, Rinv_l, Rmult_1_r, Rmult_1_l by lra.
    rewrite <- (sqrt_square (Kfun sigma a b)) at 1 by lra.
    apply sqrt_le_1; [nra|nra|].
    apply (Kfun_cauchy_schwarz d); assumption.
  - rewrite normalized_self by exact Ha. reflexivity.
Qed.

Lemma gak_normalized_in_unit_interval_witness :
  let a := npy2d_time_series (Raw1 [1; 2; 3]) in
  let b := npy2d_time_series (Raw1 [1; 2; 2; 3]) in
  gak (Raw1 [1; 2; 3]) (Raw1 [1; 2; 2; 3]) 2
  = Ok (Kfun 2 a b / sqrt (Kfun 2 a a * Kfun 2 b b)) /\
  0 < Kfun 2 a b / sqrt (Kfun 2 a a * Kfun 2 b b) <= 1 /\
  gak (Raw1 [1; 2; 3]) (Raw1 [1; 2; 3]) 2 = Ok 1.
Proof.
  apply (gak_normalized_in_unit_interval
           (Raw1 [1; 2; 3]) (Raw1 [1; 2; 2; 3]) 2 1).
  - simpl. discriminate.
  - simpl. discriminate.
  - repeat constructor.
  - repeat constructor.
  - lra.
Defined.

Lemma xle_refl x : xle x x.
Proof. destruct x; simpl; [lra|exact I]. Qed.

Lemma xle_trans x y z : xle x y -> xle y z -> xle x z.
Proof. destruct x, y, z; simpl; try tauto; lra. Qed.

Lemma xmin_le_l x y : xle (xmin x y) x.
Proof.
  destruct x as [a|], y as [b|]; simpl; try lra; try exact I.
  apply Rmin_l.
Qed.

Lemma xmin_le_r x y : xle (xmin x y) y.
Proof.
  destruct x as [a|], y as [b|]; simpl; try lra; try exact I.
  apply Rmin_r.
Qed.

Lemma xmin_glb x y z : xle z x -> xle z y -> xle z (xmin x y).
Proof.
  destruct x as [a|], y as [b|], z as [c|]; simpl; try tauto.
  intros. apply Rmin_glb; assumption.
Qed.

Lemma xmin_comm x y : xmin x y = xmin y x.
Proof.
  destruct x as [a|], y as [b|]; simpl; try reflexivity.
  rewrite Rmin_comm. reflexivity.
Qed.

Lemma xmin3_swap x y z : xmin3 x y z = xmin3 y x z.
Proof.
  unfold xmin3. destruct x as [a|], y as [b|], z as [c|]; simpl;
    try reflexivity; f_equal.
  - rewrite !Rmin_assoc, (Rmin_comm a b). reflexivity.
  - apply Rmin_comm.
Qed.

Lemma xadd_le c x y : xle x y -> xle (xadd c x) (xadd c y).
Proof. destruct x, y; simpl; try tauto. lra. Qed.

Lemma local_cost_nonneg s1 s2 i j : 0 <= cydtw.local_cost s1 s2 i j.
Proof. apply sqdist_nonneg. Qed.

Lemma local_cost_sym s1 s2 i j :
  cydtw.local_cost s1 s2 i j = cydtw.local_cost s2 s1 j i.
Proof. apply sqdist_sym. Qed.

(** No cell of the grid holds a negative cost. *)
Lemma Dval_nonneg s1 s2 i j : xle (Fin 0) (Dval s1 s2 i j).
Proof.
  revert i j. apply grid_ind.
  - intros [|j]; simpl; [lra|exact I].
  - intros i. exact I.
  - intros i j H1 H2 H3. rewrite Dval_S_S.
    assert (H : xle (Fin 0)
                  (xmin3 (Dval s1 s2 i (S j)) (Dval s1 s2 (S i) j)
                     (Dval s1 s2 i j))).
    { unfold xmin3. apply xmin_glb; [exact H1|]. apply xmin_glb; assumption. }
    pose proof (local_cost_nonneg s1 s2 i j) as Hc.
    destruct (xmin3 _ _ _); simpl in *; [lra|exact I].
Qed.

Lemma Dval_sym s1 s2 i j : Dval s1 s2 i j = Dval s2 s1 j i.
Proof.
  revert i j. apply grid_ind.
  - intros [|j]; reflexivity.
  - intros i. reflexivity.
  - intros i j H1 H2 H3.
    rewrite !Dval_S_S, H1, H2, H3, local_cost_sym, xmin3_swap. reflexivity.
Qed.

Lemma Dval_diag s i : Dval s s i i = Fin 0.
Proof.
  induction i as [|i IH]; [reflexivity|].
  rewrite Dval_S_S, IH. unfold cydtw.local_cost. rewrite sqdist_refl.
  pose proof (Dval_nonneg s s i (S i)) as H1.
  pose proof (Dval_nonneg s s (S i) i) as H2.
  unfold xmin3.
  destruct (Dval s s i (S i)) as [a|], (Dval s s (S i) i) as [b|];
    simpl in *; f_equal.
  - rewrite (Rmin_right b 0), (Rmin_right a 0) by lra. ring.
  - rewrite (Rmin_right a 0) by lra. ring.
  - rewrite (Rmin_right b 0) by lra. ring.
  - ring.
Qed.

Lemma cydtw_dtw_Dval s1 s2 :
  cydtw.dtw s1 s2 = xsqrt (Dval s1 s2 (length s1) (length s2)).
Proof. unfold cydtw.dtw. rewrite cost_grid_Dval by lia. reflexivity. Qed.

(** ** Further properties of the measures *)

(** [dtw(s, s)] is 0 for every series. *)
Theorem dtw_self_zero (s : raw_series) : dtw s s = Fin 0.
Proof.
  unfold dtw. rewrite cydtw_dtw_Dval, Dval_diag. simpl. f_equal. apply sqrt_0.
Qed.

(** [dtw] does not depend on the order of its arguments. *)
Theorem dtw_symmetric (s1 s2 : raw_series) : dtw s1 s2 = dtw s2 s1.
Proof. unfold dtw. rewrite !cydtw_dtw_Dval, Dval_sym. reflexivity. Qed.

(** The score of two non-empty series is a finite, non-negative number. *)
Theorem dtw_finite_nonneg (s1 s2 : raw_series) :
  npy2d_time_series s1 <> [] -> npy2d_time_series s2 <> [] ->
  exists r, dtw s1 s2 = Fin r /\ 0 <= r.
Proof.
  intros H1 H2. unfold dtw. rewrite cydtw_dtw_Dval.
  destruct (npy2d_time_series s1) as [|p a]; [congruence|].
  destruct (npy2d_time_series s2) as [|q b]; [congruence|].
  cbn [length].
  pose proof (Dval_interior_fin (p :: a) (q :: b) (length a) (length b)) as Hf.
  destruct (Dval (p :: a) (q :: b) (S (length a)) (S (length b))) as [r|];
    [|destruct Hf].
  exists (sqrt r). split; [reflexivity|apply sqrt_pos].
Qed.

Lemma dtw_finite_nonneg_witness :
  exists r, dtw (Raw1 [1; 2; 3]) (Raw1 [2; 5]) = Fin r /\ 0 <= r.
Proof.
  apply (dtw_finite_nonneg (Raw1 [1; 2; 3]) (Raw1 [2; 5]));
    simpl; discriminate.
Defined.

Lemma path_cost_app s1 s2 l1 l2 :
  path_cost s1 s2 (l1 ++ l2) = path_cost s1 s2 l1 + path_cost s1 s2 l2.
Proof.
  unfold path_cost. induction l1 as [|c l1 IH]; simpl; [ring|].
  rewrite IH. ring.
Qed.

Lemma path_cost_single s1 s2 i j :
  path_cost s1 s2 [(i, j)] = cydtw.local_cost s1 s2 i j.
Proof. unfold path_cost. simpl. ring. Qed.

(** The predecessor chosen by the backtrace carries the minimum. *)
Lemma best_pred_min dg up lf :
  xmin3 up lf dg =
  match cydtw.best_pred dg up lf with
  | Diag => dg
  | Up => up
  | Left => lf
  end.
Proof.
  unfold cydtw.best_pred, xmin3, xmin, xleb.
  destruct dg as [a|], up as [b|], lf as [c|]; simpl;
    repeat (destruct (Rle_dec _ _); simpl); try reflexivity;
    f_equal; unfold Rmin; repeat (destruct (Rle_dec _ _)); lra.
Qed.

Section BacktraceCost.

Variables (s1 s2 : series) (D : matrix xreal).
Hypothesis D_spec : forall i j,
    (i <= length s1)%nat -> (j <= length s2)%nat ->
    mget Inf D i j = Dval s1 s2 i j.

(** What the walk emits below a cell adds up to the cost stored in it. *)
Lemma backtrace_cost fuel : forall i j acc path,
    (i < length s1)%nat -> (j < length s2)%nat ->
    cydtw.backtrace D fuel (S i) (S j) acc = Some path ->
    exists pre,
      path = pre ++ (i, j) :: acc /\
      Fin (path_cost s1 s2 (pre ++ [(i, j)])) = Dval s1 s2 (S i) (S j).
Proof.
  induction fuel as [|fuel IH]; intros i j acc path Hi Hj H; [discriminate|].
  cbn [cydtw.backtrace] in H. rewrite !D_spec in H by lia.
  pose proof (best_pred_min (Dval s1 s2 i j) (Dval s1 s2 i (S j))
                (Dval s1 s2 (S i) j)) as Hmin.
  assert (Hnext : forall i' j',
             Dval s1 s2 (S i') (S j') =
             xmin3 (Dval s1 s2 i (S j)) (Dval s1 s2 (S i) j) (Dval s1 s2 i j) ->
             (i' < length s1)%nat -> (j' < length s2)%nat ->
             cydtw.backtrace D fuel (S i') (S j') ((i, j) :: acc) = Some path ->
             exists pre,
               path = pre ++ (i, j) :: acc /\
               Fin (path_cost s1 s2 (pre ++ [(i, j)])) = Dval s1 s2 (S i) (S j)).
  { intros i' j' E Hi' Hj' Hb.
    destruct (IH i' j' ((i, j) :: acc) path Hi' Hj' Hb) as (pre & -> & Hc).
    exists (pre ++ [(i', j')]). split; [rewrite <- app_assoc; reflexivity|].
    rewrite path_cost_app, path_cost_single, Dval_S_S, <- E, <- Hc.
    simpl. f_equal. ring. }
  destruct (cydtw.best_pred _ _ _).
  - destruct i as [|i], j as [|j].
    + destruct fuel as [|fuel]; [discriminate|]. cbn in H.
      injection H as <-. exists []. split; [reflexivity|].
      cbn [app]. rewrite path_cost_single, Dval_S_S, Hmin. simpl.
      f_equal. ring.
    + destruct fuel; discriminate.
    + destruct fuel; discriminate.
    + apply (Hnext i j); [symmetry; exact Hmin|lia|lia|exact H].
  - destruct i as [|i]; [destruct fuel; discriminate|].
    apply (Hnext i j); [symmetry; exact Hmin|lia|lia|exact H].
  - destruct j as [|j]; [destruct fuel; destruct i; discriminate|].
    apply (Hnext i j); [symmetry; exact Hmin|lia|lia|exact H].
Qed.

End BacktraceCost.

Lemma xsqrt_le x y : xle x y -> xle (xsqrt x) (xsqrt y).
Proof.
  destruct x, y; simpl; try tauto. apply sqrt_le_1_alt.
Qed.

Lemma contiguous_snoc l p c :
  contiguous (l ++ [p; c]) -> contiguous (l ++ [p]) /\ path_step p c.
Proof.
  induction l as [|q l IH].
  - simpl. tauto.
  - destruct l as [|q' l].
    + simpl. tauto.
    + intros [Hs Hc]. destruct (IH Hc) as [H1 H2].
      split; [|exact H2]. split; assumption.
Qed.

(** No contiguous path from the origin is cheaper than the cell it ends
    in. *)
Lemma Dval_le_path_cost s1 s2 path : forall i j,
    contiguous path -> head path = Some (O, O) -> last path = Some (i, j) ->
    xle (Dval s1 s2 (S i) (S j)) (Fin (path_cost s1 s2 path)).
Proof.
  induction path as [|c l IH] using rev_ind; intros i j Hc Hh Hl;
    [discriminate|].
  rewrite last_snoc in Hl. injection Hl as ->.
  destruct l as [|p l' _] using rev_ind.
  - simpl in Hh. injection Hh as -> ->.
    simpl app. rewrite path_cost_single, Dval_S_S. simpl. lra.
  - rewrite <- app_assoc in Hc. simpl in Hc.
    apply contiguous_snoc in Hc as [Hc Hs].
    assert (Hh' : head (l' ++ [p]) = Some (O, O)).
    { destruct l'; exact Hh. }
    destruct p as [i' j'].
    specialize (IH i' j' Hc Hh' (last_snoc _ _)).
    rewrite path_cost_app, path_cost_single, Dval_S_S.
    assert (Hm : xle (xmin3 (Dval s1 s2 i (S j)) (Dval s1 s2 (S i) j)
                        (Dval s1 s2 i j))
                   (Fin (path_cost s1 s2 (l' ++ [(i', j')])))).
    { eapply xle_trans; [|exact IH]. unfold xmin3.
      destruct Hs as [E|[E|E]]; simpl in E; injection E as -> ->.
      - apply xmin_le_l.
      - eapply xle_trans; [apply xmin_le_r|apply xmin_le_l].
      - eapply xle_trans; [apply xmin_le_r|apply xmin_le_r]. }
    destruct (xmin3 _ _ _); cbn [xle xadd] in *; [|destruct Hm].
    rewrite (Rplus_comm (path_cost _ _ _)). apply Rplus_le_compat_l. exact Hm.
Qed.

(** For non-empty series [dtw_path] returns the score of [dtw], and the
    squared costs along the returned path add up to the square of that
    score. *)
Theorem dtw_path_realises_score (s1 s2 : raw_series) :
  npy2d_time_series s1 <> [] -> npy2d_time_series s2 <> [] ->
  exists path,
    dtw_path s1 s2 = Some (path, dtw s1 s2) /\
    dtw s1 s2 =
    Fin (sqrt (path_cost (npy2d_time_series s1) (npy2d_time_series s2) path)).
Proof.
  intros H1 H2. unfold dtw_path, dtw, cydtw.dtw_path, cydtw.dtw.
  destruct (npy2d_time_series s1) as [|p a] eqn:Ea; [congruence|].
  destruct (npy2d_time_series s2) as [|q b] eqn:Eb; [congruence|].
  clear H1 H2. cbn [length].
  destruct (backtrace_reaches_origin (p :: a) (q :: b)
              (cydtw.cost_grid (p :: a) (q :: b))
              (cost_grid_Dval (p :: a) (q :: b))
              (S (S (length a) + S (length b))) (length a) (length b) [])
    as (pre & E & _ & _); [lia|simpl; lia|simpl; lia|exact I|].
  cbn [length] in E. rewrite E.
  destruct (backtrace_cost (p :: a) (q :: b)
              (cydtw.cost_grid (p :: a) (q :: b))
              (cost_grid_Dval (p :: a) (q :: b)) _ (length a) (length b)
              [] _ ltac:(simpl; lia) ltac:(simpl; lia) E)
    as (pre' & Ep & Hc).
  apply app_inv_tail in Ep. subst pre'.
  exists (pre ++ [(length a, length b)]). split; [reflexivity|].
  rewrite cost_grid_Dval by (simpl; lia). rewrite <- Hc. reflexivity.
Qed.

(** No contiguous path from [(0, 0)] to [(n - 1, m - 1)] costs less than
    the score: [dtw] is at most the square root of any such path's
    accumulated squared cost. *)
Theorem dtw_minimal_over_paths (s1 s2 : raw_series) (path : list (nat * nat)) :
  contiguous path ->
  head path = Some (O, O) ->
  last path = Some ((length (npy2d_time_series s1) - 1)%nat,
                    (length (npy2d_time_series s2) - 1)%nat) ->
  npy2d_time_series s1 <> [] -> npy2d_time_series s2 <> [] ->
  xle (dtw s1 s2)
    (Fin (sqrt (path_cost (npy2d_time_series s1) (npy2d_time_series s2) path))).
Proof.
  intros Hc Hh Hl H1 H2. unfold dtw. rewrite cydtw_dtw_Dval.
  destruct (npy2d_time_series s1) as [|p a]; [congruence|].
  destruct (npy2d_time_series s2) as [|q b]; [congruence|].
  cbn [length] in *. rewrite !Nat.sub_succ, !Nat.sub_0_r in Hl.
  apply (xsqrt_le _ (Fin _)). apply Dval_le_path_cost; assumption.
Qed.

Lemma dtw_path_realises_score_witness :
  exists path,
    dtw_path (Raw1 [1; 2; 3]) (Raw1 [2; 5])
    = Some (path, dtw (Raw1 [1; 2; 3]) (Raw1 [2; 5])) /\
    dtw (Raw1 [1; 2; 3]) (Raw1 [2; 5])
    = Fin (sqrt (path_cost [[1]; [2]; [3]] [[2]; [5]] path)).
Proof.
  apply (dtw_path_realises_score (Raw1 [1; 2; 3]) (Raw1 [2; 5]));
    simpl; discriminate.
Defined.

Lemma dtw_minimal_over_paths_witness :
  xle (dtw (Raw1 [1; 2; 3]) (Raw1 [2; 5]))
    (Fin (sqrt (path_cost [[1]; [2]; [3]] [[2]; [5]]
                  [(0, 0); (1, 0); (2, 1)]%nat))).
Proof.
  apply (dtw_minimal_over_paths (Raw1 [1; 2; 3]) (Raw1 [2; 5])
           [(0, 0); (1, 0); (2, 1)]%nat).
  - simpl. unfold path_step. simpl. tauto.
  - reflexivity.
  - reflexivity.
  - simpl. discriminate.
  - simpl. discriminate.
Defined.

(** Two matrices of one shape with the same entries are equal. *)
Lemma matrix_ext {A} (d : A) (rows cols : nat) (M M' : matrix A) :
  shape_ok rows cols M -> shape_ok rows cols M' ->
  (forall i j, (i < rows)%nat -> (j < cols)%nat ->
               mget d M i j = mget d M' i j) ->
  M = M'.
Proof.
  intros [Hl Hr] [Hl' Hr'] H. apply list_eq. intros i.
  destruct (decide (i < rows)%nat) as [Hi|Hi].
  - destruct (lookup_lt_is_Some_2 M i) as [row Hrow]; [lia|].
    destruct (lookup_lt_is_Some_2 M' i) as [row' Hrow']; [lia|].
    rewrite Hrow, Hrow'. f_equal. apply list_eq. intros j.
    pose proof (Hr _ _ Hrow) as Hlr. pose proof (Hr' _ _ Hrow') as Hlr'.
    destruct (decide (j < cols)%nat) as [Hj|Hj].
    + specialize (H i j Hi Hj). unfold mget in H.
      rewrite Hrow, Hrow' in H. simpl in H.
      destruct (lookup_lt_is_Some_2 row j) as [v Hv]; [lia|].
      destruct (lookup_lt_is_Some_2 row' j) as [v' Hv']; [lia|].
      rewrite Hv, Hv' in H |- *. simpl in H. congruence.
    + rewrite !lookup_ge_None_2 by lia. reflexivity.
  - rewrite !lookup_ge_None_2 by lia. reflexivity.
Qed.

Lemma cdist_shape {A} (blank : A) (engine : series -> series -> A) (diag : A)
  (dataset1 dataset2 : dataset) (self_similarity : bool) :
  shape_ok (length dataset1) (length dataset2)
    (cdist blank engine diag dataset1 dataset2 self_similarity).
Proof.
  unfold cdist.
  apply (fill_loops_inv
           (fun M _ _ => shape_ok (length dataset1) (length dataset2) M)).
  - intros M i j _ _ HM. unfold cdist_cell.
    destruct (self_similarity && (j <? i)%nat);
      [|destruct (self_similarity && (i =? j)%nat)];
      apply shape_ok_mset, HM.
  - intros M i _ HM. exact HM.
  - apply shape_ok_mfull.
Qed.

(** In self-similarity mode the shortcuts change nothing when the engine
    is symmetric and yields the diagonal value on equal arguments. *)
Lemma cdist_self_shortcut {A} (blank : A) (engine : series -> series -> A)
  (diag : A) (d : dataset) :
  (forall s, engine s s = diag) ->
  (forall s t, engine s t = engine t s) ->
  cdist blank engine diag d d true = cdist blank engine diag d d false.
Proof.
  intros Hdiag Hsym.
  apply (matrix_ext blank (length d) (length d)); try apply cdist_shape.
  intros i j Hi Hj. rewrite !cdist_spec by (auto; lia).
  unfold cdist_val.
  destruct (Nat.eqb_spec i j) as [->|_]; [symmetry; apply Hdiag|].
  destruct (j <? i)%nat; [apply Hsym|reflexivity].
Qed.

Lemma shape_ok_rows {A} (rows cols : nat) (M : matrix A) :
  shape_ok rows cols M ->
  length M = rows /\ Forall (fun row => length row = cols) M.
Proof.
  intros [Hl Hr]. split; [exact Hl|].
  rewrite List.Forall_forall. intros row Hrow.
  apply list_elem_of_In, list_elem_of_lookup in Hrow as [i Hi].
  apply (Hr i row Hi).
Qed.

(** The matrices returned by [cdist_dtw] and [cdist_gak] have one row per
    series of [dataset1] and one column per series of [dataset2] (of
    [dataset1] when [dataset2] is omitted). *)
Theorem cdist_matrix_shape (ds1 : raw_dataset) (ds2 : option raw_dataset)
  (sigma : R) :
  (length (cdist_dtw ds1 ds2) = length ds1 /\
   Forall (fun row => length row = length (default ds1 ds2))
     (cdist_dtw ds1 ds2)) /\
  (forall M, cdist_gak ds1 ds2 sigma = Ok M ->
     length M = length ds1 /\
     Forall (fun row => length row = length (default ds1 ds2)) M).
Proof.
  split.
  - apply shape_ok_rows. unfold cdist_dtw, metrics.cdist_dtw, cydtw.cdist_dtw.
    destruct ds2 as [ds2|]; simpl; rewrite <- !length_npy3d;
      apply cdist_shape.
  - intros M. unfold cdist_gak, metrics.cdist_gak, cygak.cdist_gak.
    destruct ds2 as [ds2|]; simpl;
      (destruct (Rle_dec sigma 0); [discriminate|]); intros [= <-];
      apply shape_ok_rows; rewrite <- !length_npy3d; apply cdist_shape.
Qed.

Lemma cdist_matrix_shape_witness :
  length (cdist_dtw [Raw1 [1; 2]; Raw1 [3]] (Some [Raw1 [4]])) = 2%nat /\
  Forall (fun row => length row = 1%nat)
    (cdist_dtw [Raw1 [1; 2]; Raw1 [3]] (Some [Raw1 [4]])).
Proof.
  apply (cdist_matrix_shape [Raw1 [1; 2]; Raw1 [3]] (Some [Raw1 [4]]) 2).
Defined.

(** Omitting [dataset2] gives the same matrix as passing [dataset1]
    twice. *)
Theorem cdist_dtw_omitted_equals_explicit (ds : raw_dataset) :
  cdist_dtw ds None = cdist_dtw ds (Some ds).
Proof.
  unfold cdist_dtw, metrics.cdist_dtw, cydtw.cdist_dtw.
  apply cdist_self_shortcut.
  - intros s. rewrite cydtw_dtw_Dval, Dval_diag. simpl. f_equal. apply sqrt_0.
  - intros s t. rewrite !cydtw_dtw_Dval, Dval_sym. reflexivity.
Qed.

Lemma gak_self_pos s sigma : 0 < cygak.gak s s sigma.
Proof.
  rewrite gak_Kval. destruct s as [|p s]; [simpl; lra|].
  apply Kval_interior_pos.
Qed.

Lemma normalized_diag s sigma : cygak.normalized s s sigma = 1.
Proof.
  unfold cygak.normalized. pose proof (gak_self_pos s sigma) as Hk.
  rewrite sqrt_square by lra. apply Rdiv_diag. lra.
Qed.

Lemma normalized_sym s t sigma :
  cygak.normalized s t sigma = cygak.normalized t s sigma.
Proof.
  unfold cygak.normalized.
  rewrite (gak_sym s t), (Rmult_comm (cygak.gak s s sigma)). reflexivity.
Qed.

(** [gak] does not depend on the order of the two series. *)
Theorem gak_symmetric (s1 s2 : raw_series) (sigma : R) :
  gak s1 s2 sigma = gak s2 s1 sigma.
Proof.
  unfold gak, cygak.normalized_gak.
  destruct (Rle_dec sigma 0); [reflexivity|].
  rewrite normalized_sym. reflexivity.
Qed.

(** Omitting [dataset2] gives the same kernel matrix, or the same error,
    as passing [dataset1] twice. *)
Theorem cdist_gak_omitted_equals_explicit (ds : raw_dataset) (sigma : R) :
  cdist_gak ds None sigma = cdist_gak ds (Some ds) sigma.
Proof.
  unfold cdist_gak, metrics.cdist_gak, cygak.cdist_gak.
  destruct (Rle_dec sigma 0); [reflexivity|]. f_equal.
  apply cdist_self_shortcut.
  - intros s. apply normalized_diag.
  - intros s t. apply normalized_sym.
Qed.

Lemma PD_pullback {X Y} (P : X -> Prop) (Q : Y -> Prop) (g : Y -> X)
  (k : X -> X -> R) :
  (forall y, Q y -> P (g y)) -> PD P k ->
  PD Q (fun y y' => k (g y) (g y')).
Proof.
  intros Hg H l Hl.
  set (l' := map (fun p : R * Y => (fst p, g (snd p))) l).
  assert (E : bilin (fun y y' => k (g y) (g y')) l l = bilin k l' l').
  { unfold l'. rewrite bilin_map. reflexivity. }
  rewrite E. apply H. unfold l'.
  rewrite List.Forall_forall in Hl |- *. intros p Hp.
  apply List.in_map_iff in Hp as (q & <- & Hq). simpl. apply Hg, Hl, Hq.
Qed.

Lemma normalized_rank1 s t sigma :
  cygak.normalized s t sigma =
  / sqrt (Kfun sigma s s) * / sqrt (Kfun sigma t t) * Kfun sigma s t.
Proof.
  unfold cygak.normalized, Kfun. rewrite <- !gak_Kval.
  pose proof (gak_self_pos s sigma) as Hs.
  pose proof (gak_self_pos t sigma) as Ht.
  rewrite sqrt_mult by lra.
  pose proof (sqrt_lt_R0 _ Hs). pose proof (sqrt_lt_R0 _ Ht).
  field. split; lra.
Qed.

(** The normalised kernel is positive definite: for any series of one
    feature dimension and any weights, the weighted sum of all pairwise
    [gak] values is non-negative. *)
Theorem gak_positive_definite (d : nat) (sigma : R)
  (l : list (R * raw_series)) :
  0 < sigma ->
  Forall (fun p => dseries d (npy2d_time_series (snd p))) l ->
  0 <= bilin (fun s1 s2 => gak_value s1 s2 sigma) l l.
Proof.
  intros Hs Hl.
  assert (HK : PD (fun s : raw_series => dseries d (npy2d_time_series s))
                 (fun s t => Kfun sigma (npy2d_time_series s)
                               (npy2d_time_series t))).
  { apply (PD_pullback (dseries d) _ npy2d_time_series (Kfun sigma));
      [auto|apply PD_Kfun]. }
  pose proof (Schur_rank1 (fun _ : raw_series => True)
                (fun s => / sqrt (Kfun sigma (npy2d_time_series s)
                                    (npy2d_time_series s)))
                raw_series _ (fun s => s) _ (fun _ _ => I) HK l Hl) as H.
  erewrite bilin_ext_in; [exact H|].
  intros p q _ _. cbv beta. unfold gak_value, gak, cygak.normalized_gak.
  destruct (Rle_dec sigma 0); [lra|]. apply normalized_rank1.
Qed.

Lemma gak_positive_definite_witness :
  0 <= bilin (fun s1 s2 => gak_value s1 s2 2)
         [(1, Raw1 [1; 2; 3]); (-1, Raw1 [1; 2; 2; 3])]
         [(1, Raw1 [1; 2; 3]); (-1, Raw1 [1; 2; 2; 3])].
Proof.
  apply (gak_positive_definite 1 2); [lra|]. repeat constructor.
Defined.

(** *** Sorting and the median *)










Section BandwidthBounds.

Context {rng : Type}.
Variable choice : nat -> Z -> bool -> rng -> result (list nat) * rng.
Hypothesis contract : sampler_contract choice.


End BandwidthBounds.

(** With [n_samples = 1] the result is [nan]: one sampled point has no
    pairwise distance. *)
Theorem sigma_gak_single_sample_nan {rng : Type}
  (choice : nat -> Z -> bool -> rng -> result (list nat) * rng)
  (ds : raw_dataset) (g : rng) :
  let d := npy3d_time_series_dataset ds in
  sampler_contract choice ->
  (0 < length d * length (nth 0 d []))%nat ->
  exists g', sigma_gak choice ds 1 g = (Ok None, g').
Proof.
  intros d Hc Ht.
  set (t := (length d * length (nth 0 d []))%nat) in *.
  destruct (Hc t 1%Z (Z.of_nat t <? 1)%Z g)
    as (indices & g' & E & Hl & _); [exact Ht|lia| |].
  { destruct (Z.ltb_spec (Z.of_nat t) 1); [left|right]; auto. }
  exists g'. rewrite sigma_gak_unfold. fold d. fold t. rewrite E.
  destruct indices as [|k [|k' rest]]; simpl in Hl; try lia.
  reflexivity.
Qed.

Lemma sigma_gak_single_sample_nan_witness :
  exists g', sigma_gak stand_in.choice [Raw1 [0; 1; 3]] 1 0%Z = (Ok None, g').
Proof.
  apply (sigma_gak_single_sample_nan stand_in.choice [Raw1 [0; 1; 3]] 0%Z).
  - exact stand_in_contract.
  - simpl. lia.
Defined.



Lemma path_cost_shift p q a b l :
  path_cost (p :: a) (q :: b) (map (fun c => (S (fst c), S (snd c))) l) =
  path_cost a b l.
Proof.
  unfold path_cost. induction l as [|c l IH]; [reflexivity|].
  cbn [map fold_right fst snd]. rewrite IH. reflexivity.
Qed.

Lemma diagonal_path_S n :
  diagonal_path (S n) =
  (O, O) :: map (fun c => (S (fst c), S (snd c))) (diagonal_path n).
Proof.
  unfold diagonal_path. cbn [seq map]. f_equal.
  rewrite <- seq_shift, !map_map. reflexivity.
Qed.

Lemma path_cost_diagonal a b :
  length a = length b ->
  path_cost a b (diagonal_path (length a)) = euclid_sq a b.
Proof.
  revert b. induction a as [|p a IH]; intros [|q b] Hl; try discriminate.
  - reflexivity.
  - cbn [length]. rewrite diagonal_path_S.
    change (path_cost (p :: a) (q :: b) ((O, O) :: ?l))
      with (cydtw.local_cost (p :: a) (q :: b) 0 0
            + path_cost (p :: a) (q :: b) l).
    rewrite path_cost_shift, IH by (simpl in Hl; lia). reflexivity.
Qed.

Lemma contiguous_diagonal n : contiguous (diagonal_path n).
Proof.
  unfold diagonal_path. generalize O as k.
  induction n as [|n IH]; intros k; [exact I|].
  cbn [seq map]. destruct n as [|n]; [exact I|].
  split; [|apply (IH (S k))]. right; right. reflexivity.
Qed.

Lemma last_diagonal n : last (diagonal_path (S n)) = Some (n, n).
Proof.
  unfold diagonal_path. rewrite seq_S, map_app. simpl. apply last_snoc.
Qed.

(** For two series of the same length [dtw] does not exceed their
    Euclidean distance. *)
Theorem dtw_le_euclidean (s1 s2 : raw_series) :
  length (npy2d_time_series s1) = length (npy2d_time_series s2) ->
  npy2d_time_series s1 <> [] ->
  xle (dtw s1 s2)
    (Fin (sqrt (euclid_sq (npy2d_time_series s1) (npy2d_time_series s2)))).
Proof.
  intros Hl Hne. unfold dtw. rewrite cydtw_dtw_Dval.
  rewrite <- path_cost_diagonal by exact Hl.
  destruct (npy2d_time_series s1) as [|p a]; [congruence|].
  destruct (npy2d_time_series s2) as [|q b]; [discriminate|].
  cbn [length] in *. injection Hl as Hl.
  apply (xsqrt_le _ (Fin _)). rewrite <- Hl at 1.
  apply Dval_le_path_cost.
  - apply contiguous_diagonal.
  - rewrite diagonal_path_S. reflexivity.
  - apply last_diagonal.
Qed.

Lemma dtw_le_euclidean_witness :
  xle (dtw (Raw1 [1; 2; 3]) (Raw1 [2; 3; 5]))
    (Fin (sqrt (euclid_sq [[1]; [2]; [3]] [[2]; [3]; [5]]))).
Proof.
  apply (dtw_le_euclidean (Raw1 [1; 2; 3]) (Raw1 [2; 3; 5]));
    simpl; [reflexivity|discriminate].
Defined.

(** A contiguous path stays in the rectangle spanned by its two ends, and
    its number of steps lies between the larger and the sum of the two
    index differences. *)
Lemma contiguous_bounds l : forall a0 b0 a1 b1,
    contiguous ((a0, b0) :: l) ->
    last ((a0, b0) :: l) = Some (a1, b1) ->
    (a0 <= a1 /\ b0 <= b1 /\
     Nat.max (a1 - a0) (b1 - b0) <= length l <= (a1 - a0) + (b1 - b0))%nat /\
    Forall (fun c => (a0 <= fst c <= a1 /\ b0 <= snd c <= b1)%nat)
      ((a0, b0) :: l).
Proof.
  induction l as [|[a b] l IH]; intros a0 b0 a1 b1 Hc Hl.
  - simpl in Hl. injection Hl as <- <-. split; [simpl; lia|].
    constructor; [simpl; lia|constructor].
  - destruct Hc as [Hs Hc]. rewrite last_cons_cons in Hl.
    destruct (IH a b a1 b1 Hc Hl) as [Hb Hall].
    assert (Hab : (a = S a0 /\ b = b0) \/ (a = a0 /\ b = S b0) \/
                  (a = S a0 /\ b = S b0)).
    { destruct Hs as [E|[E|E]]; simpl in E; injection E as -> ->; lia. }
    split; [cbn [length]; lia|].
    constructor; [simpl; lia|].
    rewrite List.Forall_forall in Hall |- *. intros c Hin.
    specialize (Hall c Hin). simpl in Hall. lia.
Qed.

(** For non-empty series of lengths [n] and [m] the path returned by
    [dtw_path] has between [max(n, m)] and [n + m - 1] index pairs, and
    every pair indexes into the two series. *)
Theorem dtw_path_length_and_range (s1 s2 : raw_series) :
  let n := length (npy2d_time_series s1) in
  let m := length (npy2d_time_series s2) in
  npy2d_time_series s1 <> [] -> npy2d_time_series s2 <> [] ->
  exists path score,
    dtw_path s1 s2 = Some (path, score) /\
    (Nat.max n m <= length path <= n + m - 1)%nat /\
    Forall (fun c => (fst c < n)%nat /\ (snd c < m)%nat) path.
Proof.
  intros n m H1 H2. unfold dtw_path, cydtw.dtw_path. subst n m.
  destruct (npy2d_time_series s1) as [|p a] eqn:Ea; [congruence|].
  destruct (npy2d_time_series s2) as [|q b] eqn:Eb; [congruence|].
  clear H1 H2. cbn [length].
  destruct (backtrace_reaches_origin (p :: a) (q :: b)
              (cydtw.cost_grid (p :: a) (q :: b))
              (cost_grid_Dval (p :: a) (q :: b))
              (S (S (length a) + S (length b))) (length a) (length b) [])
    as (pre & E & C & Hh); [lia|simpl; lia|simpl; lia|exact I|].
  cbn [length] in E. rewrite E.
  eexists. eexists. split; [reflexivity|].
  set (path := pre ++ [(length a, length b)]) in *.
  assert (Hl : last path = Some (length a, length b)) by apply last_snoc.
  destruct path as [|[a0 b0] l]; [discriminate|].
  simpl in Hh. injection Hh as -> ->.
  destruct (contiguous_bounds l _ _ _ _ C Hl) as [Hb Hall].
  split; [cbn [length]; lia|].
  rewrite List.Forall_forall in Hall |- *. intros c Hin.
  specialize (Hall c Hin). simpl in Hall. lia.
Qed.

Lemma dtw_path_length_and_range_witness :
  exists path score,
    dtw_path (Raw1 [1; 2; 3]) (Raw1 [2; 5]) = Some (path, score) /\
    (Nat.max 3 2 <= length path <= 3 + 2 - 1)%nat /\
    Forall (fun c => (fst c < 3)%nat /\ (snd c < 2)%nat) path.
Proof.
  apply (dtw_path_length_and_range (Raw1 [1; 2; 3]) (Raw1 [2; 5]));
    simpl; discriminate.
Defined.

(** ** The documented examples of the kernel *)

Lemma scale_pos : 0 < IZR scale.
Proof. apply IZR_lt. reflexivity. Qed.

Lemma fx_nonneg a : (0 <= a)%Z -> 0 <= fx a.
Proof.
  intros H. unfold fx. apply Rmult_le_pos; [apply IZR_le, H|].
  left. apply Rinv_0_lt_compat, scale_pos.
Qed.

Lemma fx_plus a b : fx (a + b) = fx a + fx b.
Proof. unfold fx. rewrite plus_IZR. unfold Rdiv. ring. Qed.

Lemma fx_scale : fx scale = 1.
Proof. unfold fx. apply Rdiv_diag. pose proof scale_pos. lra. Qed.

Lemma fx_0 : fx 0 = 0.
Proof. unfold fx, Rdiv. ring. Qed.

Lemma mul_down_nonneg a b : (0 <= a)%Z -> (0 <= b)%Z -> (0 <= mul_down a b)%Z.
Proof. intros Ha Hb. unfold mul_down. apply Z.div_pos; [nia|reflexivity]. Qed.

Lemma mul_down_le a b : fx (mul_down a b) <= fx a * fx b.
Proof.
  pose proof scale_pos as HS. unfold fx, mul_down.
  assert (H : IZR (a * b / scale) * IZR scale <= IZR a * IZR b).
  { rewrite <- !mult_IZR. apply IZR_le. rewrite Z.mul_comm.
    apply Z.mul_div_le. reflexivity. }
  apply Rmult_le_reg_r with (IZR scale * IZR scale); [nra|].
  field_simplify; [|lra|lra]. nra.
Qed.

Lemma mul_up_ge a b : fx a * fx b <= fx (mul_up a b).
Proof.
  pose proof scale_pos as HS. unfold fx, mul_up.
  assert (H : IZR a * IZR b <= IZR (a * b / scale + 1) * IZR scale).
  { rewrite <- !mult_IZR. apply IZR_le.
    pose proof (Z.mod_pos_bound (a * b) scale eq_refl).
    pose proof (Z.div_mod (a * b) scale). lia. }
  apply Rmult_le_reg_r with (IZR scale * IZR scale); [nra|].
  field_simplify; [|lra|lra]. nra.
Qed.

Lemma exp_double x : exp (2 * x) = exp x * exp x.
Proof. rewrite <- exp_plus. f_equal. ring. Qed.

(** Repeated squaring keeps a lower and an upper bound of an exponential. *)
Lemma sq_down_iter n : forall a x,
  (0 <= a)%Z -> fx a <= exp x ->
  (0 <= Nat.iter n sq_down a)%Z /\
  fx (Nat.iter n sq_down a) <= exp (2 ^ n * x).
Proof.
  induction n as [|n IH]; intros a x Ha H.
  - simpl. rewrite Rmult_1_l. auto.
  - destruct (IH a x Ha H) as [H0 H1]. cbn [Nat.iter]. split.
    + apply mul_down_nonneg; exact H0.
    + replace (2 ^ S n * x) with (2 * (2 ^ n * x)) by (simpl; ring).
      rewrite exp_double.
      apply Rle_trans with (1 := mul_down_le _ _).
      pose proof (fx_nonneg _ H0). apply Rmult_le_compat; assumption.
Qed.

Lemma sq_up_iter n : forall a x,
  exp x <= fx a -> exp (2 ^ n * x) <= fx (Nat.iter n sq_up a).
Proof.
  induction n as [|n IH]; intros a x H.
  - simpl. rewrite Rmult_1_l. exact H.
  - pose proof (IH a x H) as H1. cbn [Nat.iter].
    replace (2 ^ S n * x) with (2 * (2 ^ n * x)) by (simpl; ring).
    rewrite exp_double.
    apply Rle_trans with (2 := mul_up_ge _ _).
    pose proof (exp_pos (2 ^ n * x)).
    apply Rmult_le_compat; first [assumption|lra].
Qed.

(** [exp (-1/8)] to eight decimals, from [1 + x <= exp x] at
    [x = -1/2^23] and at [x = 1/2^23], and twenty squarings. *)
Lemma exp_eighth : 0.88249689 <= exp (- (1 / 8)) <= 0.88249691.
Proof.
  assert (E : 2 ^ 20 * - (1 / 8388608) = - (1 / 8)) by (simpl; lra).
  split.
  - destruct (sq_down_iter 20 999999880790710 (- (1 / 8388608)))
      as [_ H]; [lia| |].
    + apply Rle_trans with (2 := exp_ineq1_le _). unfold fx, scale. lra.
    + rewrite E in H. apply Rle_trans with (2 := H).
      set (z := Nat.iter _ _ _). vm_compute in z. subst z.
      unfold fx, scale. lra.
  - assert (H : exp (- (1 / 8388608)) <= fx 999999880790725).
    { rewrite exp_Ropp.
      pose proof (exp_ineq1_le (1 / 8388608)) as H1.
      apply Rle_trans with (/ (1 + 1 / 8388608)).
      - apply Rinv_le_contravar; lra.
      - unfold fx, scale. lra. }
    apply (sq_up_iter 20) in H. rewrite E in H.
    apply Rle_trans with (1 := H).
    set (z := Nat.iter _ _ _). vm_compute in z. subst z.
    unfold fx, scale. lra.
Qed.

Lemma Kgrid_S_S w i j :
  Kgrid w (S i) (S j) =
  (Kgrid w i (S j) + Kgrid w (S i) j + Kgrid w i j) * w i j.
Proof. reflexivity. Qed.

Lemma Kval_Kgrid sigma s1 s2 i j :
  Kval sigma s1 s2 i j =
  Kgrid (fun i j => cygak.local_kernel sigma (nth i s1 []) (nth j s2 [])) i j.
Proof.
  revert i j. apply grid_ind.
  - intros [|j]; reflexivity.
  - intros i. reflexivity.
  - intros i j H1 H2 H3. rewrite Kval_S_S, Kgrid_S_S, H1, H2, H3. reflexivity.
Qed.

Lemma below_0 : below 0 0.
Proof. split; [reflexivity|]. rewrite fx_0. lra. Qed.

Lemma below_1 : below scale 1.
Proof. split; [discriminate|]. rewrite fx_scale. lra. Qed.

Lemma above_0 : above 0 0.
Proof. unfold above. rewrite fx_0. lra. Qed.

Lemma above_1 : above scale 1.
Proof. unfold above. rewrite fx_scale. lra. Qed.

Lemma below_cell a b c v x y z w :
  below a x -> below b y -> below c z -> below v w ->
  below (mul_down (a + b + c) v) ((x + y + z) * w).
Proof.
  intros [Ha Hx] [Hb Hy] [Hc Hz] [Hv Hw]. split.
  - apply mul_down_nonneg; lia.
  - apply Rle_trans with (1 := mul_down_le _ _). rewrite !fx_plus.
    pose proof (fx_nonneg a Ha). pose proof (fx_nonneg b Hb).
    pose proof (fx_nonneg c Hc). pose proof (fx_nonneg v Hv).
    apply Rmult_le_compat; lra.
Qed.

Lemma above_cell a b c v x y z w :
  above a x -> above b y -> above c z -> above v w ->
  above (mul_up (a + b + c) v) ((x + y + z) * w).
Proof.
  intros [Ha Hx] [Hb Hy] [Hc Hz] [Hv Hw]. split.
  - apply Rmult_le_pos; lra.
  - apply Rle_trans with (2 := mul_up_ge _ _). rewrite !fx_plus.
    apply Rmult_le_compat; lra.
Qed.

Lemma fx_fill_cons mul w j diag up rest left :
  fx_fill mul w j (diag :: up :: rest) left =
  mul (up + left + diag)%Z (w j)
  :: fx_fill mul w (S j) (up :: rest) (mul (up + left + diag)%Z (w j)).
Proof. reflexivity. Qed.

Section FixedPointGrid.

Variable mul : Z -> Z -> Z.
Variable approx : Z -> R -> Prop.
Hypothesis approx_0 : approx 0 0.
Hypothesis approx_1 : approx scale 1.
Hypothesis approx_cell : forall a b c v x y z w,
  approx a x -> approx b y -> approx c z -> approx v w ->
  approx (mul (a + b + c) v) ((x + y + z) * w).

Variable wz : nat -> nat -> Z.
Variable w : nat -> nat -> R.
Variables n m : nat.
Hypothesis weights_ok :
  forall i j, (i < n)%nat -> (j < m)%nat -> approx (wz i j) (w i j).

Lemma fx_fill_approx i : (i < n)%nat ->
  forall before j left,
    (j + length before = S m)%nat ->
    (forall k, (k < length before)%nat ->
               approx (nth k before 0%Z) (Kgrid w i (j + k))) ->
    approx left (Kgrid w (S i) j) ->
    length (fx_fill mul (wz i) j before left) = (length before - 1)%nat /\
    forall k, (k < length before - 1)%nat ->
      approx (nth k (fx_fill mul (wz i) j before left) 0%Z)
        (Kgrid w (S i) (S (j + k))).
Proof.
  intros Hi. induction before as [|diag rest IH]; intros j left Hlen Hb Hl.
  - simpl. split; [reflexivity|]. intros k Hk. lia.
  - destruct rest as [|up rest'].
    + simpl. split; [reflexivity|]. intros k Hk. lia.
    + rewrite fx_fill_cons.
      set (cell := mul (up + left + diag)%Z (wz i j)).
      assert (Hcell : approx cell (Kgrid w (S i) (S j))).
      { rewrite Kgrid_S_S. apply approx_cell.
        - specialize (Hb 1%nat ltac:(simpl; lia)). simpl in Hb.
          replace (j + 1)%nat with (S j) in Hb by lia. exact Hb.
        - exact Hl.
        - specialize (Hb 0%nat ltac:(simpl; lia)). simpl in Hb.
          replace (j + 0)%nat with j in Hb by lia. exact Hb.
        - apply weights_ok; [exact Hi|]. simpl in Hlen. lia. }
      destruct (IH (S j) cell) as [IH1 IH2].
      * simpl in Hlen |- *. lia.
      * intros k Hk. specialize (Hb (S k) ltac:(simpl in *; lia)).
        cbn [nth] in Hb. replace (S j + k)%nat with (j + S k)%nat by lia.
        exact Hb.
      * exact Hcell.
      * split.
        -- cbn [length] in *. rewrite IH1. lia.
        -- intros [|k] Hk.
           ++ cbn [nth]. replace (j + 0)%nat with j by lia. exact Hcell.
           ++ cbn [nth]. replace (S (j + S k)) with (S (S j + k)) by lia.
              apply IH2. cbn [length] in *. lia.
Qed.

Lemma fx_rows_approx i : (i <= n)%nat ->
  length (fx_rows mul wz m i) = S m /\
  forall j, (j <= m)%nat ->
    approx (nth j (fx_rows mul wz m i) 0%Z) (Kgrid w i j).
Proof.
  induction i as [|i IH]; intros Hi.
  - simpl. rewrite List.repeat_length. split; [reflexivity|].
    intros [|j] Hj; [exact approx_1|].
    cbn [nth]. rewrite List.nth_repeat. exact approx_0.
  - destruct IH as [IH1 IH2]; [lia|].
    destruct (fx_fill_approx i ltac:(lia) (fx_rows mul wz m i) 0%nat 0%Z)
      as [F1 F2].
    + rewrite IH1. reflexivity.
    + intros k Hk. apply IH2. lia.
    + exact approx_0.
    + cbn [fx_rows length]. rewrite F1, IH1. split; [lia|].
      intros [|j] Hj; [exact approx_0|].
      cbn [nth]. apply (F2 j). lia.
Qed.

Lemma fx_grid_approx : approx (fx_grid mul wz n m) (Kgrid w n m).
Proof. apply fx_rows_approx; lia. Qed.

End FixedPointGrid.

Lemma kappa_mono lo g hi :
  0 <= lo -> lo <= g <= hi -> hi <= 1 ->
  0 <= kappa lo <= kappa g /\ kappa g <= kappa hi.
Proof.
  intros H0 [H1 H2] H3. unfold kappa.
  assert (E : forall a b, 0 <= a <= b -> b <= 1 -> a / (2 - a) <= b / (2 - b)).
  { intros a b Ha Hb.
    apply Rmult_le_reg_r with ((2 - a) * (2 - b)); [nra|].
    field_simplify; [|lra|lra]. nra. }
  repeat split.
  - apply Rmult_le_pos; [lra|]. left. apply Rinv_0_lt_compat. lra.
  - apply E; lra.
  - apply E; lra.
Qed.

Lemma exp_times k x : exp (INR k * x) = exp x ^ k.
Proof.
  induction k as [|k IH].
  - simpl. rewrite Rmult_0_l. apply exp_0.
  - rewrite S_INR, Rmult_plus_distr_r, Rmult_1_l, exp_plus, IH. simpl. ring.
Qed.

Lemma kappa_table k :
  below (kappa_lo k) (kappa (exp (- (1 / 8)) ^ k)) /\
  above (kappa_hi k) (kappa (exp (- (1 / 8)) ^ k)).
Proof.
  destruct exp_eighth as [T0 T1]. set (T := exp (- (1 / 8))) in *.
  assert (P : forall n, 0 < T ^ n <= 1).
  { intros n. split; [apply pow_lt; lra|].
    rewrite <- (pow1 n). apply pow_incr. lra. }
  assert (N : 0 <= kappa (T ^ k) <= 1).
  { destruct (P k). destruct (kappa_mono (T ^ k) (T ^ k) 1) as [[? ?] ?];
      [lra|lra|lra|].
    unfold kappa in *. split; [lra|].
    apply Rle_trans with (1 / (2 - 1)); [assumption|lra]. }
  unfold below, above, kappa_lo, kappa_hi.
  destruct (Nat.eqb_spec k 0) as [->|_].
  { rewrite fx_scale. simpl. unfold kappa. split; [split; [easy|]|]; lra. }
  assert (G : forall n klo khi,
             (0 <= klo)%Z ->
             fx klo * (2 - 0.88249689 ^ n) <= 0.88249689 ^ n ->
             0.88249691 ^ n <= fx khi * (2 - 0.88249691 ^ n) ->
             0.88249691 ^ n <= 1 ->
             ((0 <= klo)%Z /\ fx klo <= kappa (T ^ n)) /\
             0 <= kappa (T ^ n) <= fx khi).
  { intros n klo khi Hk Hk0 Hk1 H1.
    assert (H0 : 0 <= 0.88249689 ^ n) by (apply pow_le; lra).
    assert (H2 : 0.88249689 ^ n <= T ^ n <= 0.88249691 ^ n)
      by (split; apply pow_incr; lra).
    destruct (kappa_mono _ (T ^ n) _ H0 H2 H1) as [[Hn Hlo] Hhi].
    unfold kappa in *. repeat split; [exact Hk| |lra|].
    - apply Rle_trans with (2 := Hlo).
      apply Rmult_le_reg_r with (2 - 0.88249689 ^ n); [lra|].
      replace (0.88249689 ^ n / (2 - 0.88249689 ^ n) * (2 - 0.88249689 ^ n))
        with (0.88249689 ^ n) by (field; lra).
      exact Hk0.
    - apply Rle_trans with (1 := Hhi).
      apply Rmult_le_reg_r with (2 - 0.88249691 ^ n); [lra|].
      replace (0.88249691 ^ n / (2 - 0.88249691 ^ n) * (2 - 0.88249691 ^ n))
        with (0.88249691 ^ n) by (field; lra).
      exact Hk1. }
  destruct (Nat.eqb_spec k 1) as [->|_];
    [apply G; [easy|unfold fx, scale; lra..]|].
  destruct (Nat.eqb_spec k 4) as [->|_];
    [apply G; [easy|unfold fx, scale; lra..]|].
  destruct (Nat.eqb_spec k 9) as [->|_];
    [apply G; [easy|unfold fx, scale; lra..]|].
  destruct (Nat.eqb_spec k 16) as [->|_];
    [apply G; [easy|unfold fx, scale; lra..]|].
  destruct (Nat.eqb_spec k 36) as [->|_];
    [apply G; [easy|unfold fx, scale; lra..]|].
  rewrite fx_0, fx_scale. split; [split; [easy|]|]; lra.
Qed.

Lemma nth_scalar_series x i :
  (i < length x)%nat -> nth i (scalar_series x) [] = [IZR (nth i x 0%Z)].
Proof.
  intros H. unfold scalar_series.
  rewrite (List.nth_indep _ [] ((fun v => [IZR v]) 0%Z))
    by (rewrite List.length_map; exact H).
  exact (List.map_nth (fun v : Z => [IZR v]) x 0%Z i).
Qed.

Lemma INR_sqdiff a b : INR (sqdiff a b) = (IZR a - IZR b) * (IZR a - IZR b).
Proof.
  unfold sqdiff. rewrite INR_IZR_INZ, Z2Nat.id by apply Z.square_nonneg.
  rewrite mult_IZR, minus_IZR. reflexivity.
Qed.

(** The local kernel of two integer values is [kappa] of a power of
    [exp (-1/8)]. *)
Lemma local_kernel_scalar sigma c a b :
  2 * (sigma * sigma) * INR c = 8 ->
  cygak.local_kernel sigma [IZR a] [IZR b] =
  kappa (exp (- (1 / 8)) ^ (c * sqdiff a b)).
Proof.
  intros Hc. unfold cygak.local_kernel, cygak.gauss, kappa.
  rewrite <- exp_times, mult_INR, INR_sqdiff. cbn [sqdist].
  assert (Hs : sigma <> 0) by (intros E; rewrite E in Hc; lra).
  replace (- ((IZR a - IZR b) * (IZR a - IZR b) + 0) / (2 * (sigma * sigma)))
    with (INR c * ((IZR a - IZR b) * (IZR a - IZR b)) * - (1 / 8));
    [reflexivity|].
  assert (Ec : INR c = 8 / (2 * (sigma * sigma)))
    by (rewrite <- Hc; field; exact Hs).
  rewrite Ec. field. exact Hs.
Qed.

(** The kernel grid of two integer series lies between the fixed-point
    grids of the two bound tables. *)
Lemma Kfun_scalar_between sigma c x y :
  2 * (sigma * sigma) * INR c = 8 ->
  below (fx_grid mul_down (weights kappa_lo c x y) (length x) (length y))
    (Kfun sigma (scalar_series x) (scalar_series y)) /\
  above (fx_grid mul_up (weights kappa_hi c x y) (length x) (length y))
    (Kfun sigma (scalar_series x) (scalar_series y)).
Proof.
  intros Hc. unfold Kfun. rewrite Kval_Kgrid.
  replace (length (scalar_series x)) with (length x)
    by (symmetry; apply List.length_map).
  replace (length (scalar_series y)) with (length y)
    by (symmetry; apply List.length_map).
  assert (W : forall i j, (i < length x)%nat -> (j < length y)%nat ->
            cygak.local_kernel sigma (nth i (scalar_series x) [])
              (nth j (scalar_series y) []) =
            kappa (exp (- (1 / 8))
                   ^ (c * sqdiff (nth i x 0%Z) (nth j y 0%Z)))).
  { intros i j Hi Hj. rewrite !nth_scalar_series by assumption.
    apply local_kernel_scalar, Hc. }
  split.
  - apply (fx_grid_approx mul_down below).
    + exact below_0.
    + exact below_1.
    + apply below_cell.
    + intros i j Hi Hj. rewrite W by assumption. apply kappa_table.
  - apply (fx_grid_approx mul_up above).
    + exact above_0.
    + exact above_1.
    + apply above_cell.
    + intros i j Hi Hj. rewrite W by assumption. apply kappa_table.
Qed.

(** A quotient by a square root, from the squared comparisons. *)
Lemma normalized_between K12 K11 K22 lo hi :
  0 <= lo -> 0 < hi -> 0 <= K12 -> 0 <= K11 * K22 ->
  lo * lo * (K11 * K22) < K12 * K12 ->
  K12 * K12 < hi * hi * (K11 * K22) ->
  lo < K12 / sqrt (K11 * K22) < hi.
Proof.
  intros Hlo Hhi H12 HP H1 H2.
  set (P := K11 * K22) in *.
  assert (HP' : 0 < P) by nra.
  pose proof (sqrt_lt_R0 P HP') as Hr. pose proof (sqrt_sqrt P HP) as Hrr.
  set (r := sqrt P) in *.
  split.
  - apply Rmult_lt_reg_r with r; [exact Hr|].
    unfold Rdiv. rewrite Rmult_assoc, Rinv_l, Rmult_1_r by lra.
    apply Rsqr_incrst_0; [|apply Rmult_le_pos; lra|exact H12].
    unfold Rsqr. replace (lo * r * (lo * r)) with (lo * lo * (r * r)) by ring.
    rewrite Hrr. exact H1.
  - apply Rmult_lt_reg_r with r; [exact Hr|].
    unfold Rdiv. rewrite Rmult_assoc, Rinv_l, Rmult_1_r by lra.
    apply Rsqr_incrst_0; [|exact H12|apply Rmult_le_pos; lra].
    unfold Rsqr. replace (hi * r * (hi * r)) with (hi * hi * (r * r)) by ring.
    rewrite Hrr. exact H2.
Qed.

Lemma fx_mult4_lt a b c d e f g h :
  (a * b * (c * d) < e * f * (g * h))%Z ->
  fx a * fx b * (fx c * fx d) < fx e * fx f * (fx g * fx h).
Proof.
  intros H. apply IZR_lt in H. rewrite !mult_IZR in H.
  pose proof scale_pos as HS. unfold fx, Rdiv.
  assert (Hi : 0 < / IZR scale) by (apply Rinv_0_lt_compat, HS).
  set (s := / IZR scale) in *.
  assert (H4 : 0 < s * s * (s * s)) by (repeat apply Rmult_lt_0_compat; lra).
  replace (IZR a * s * (IZR b * s) * (IZR c * s * (IZR d * s)))
    with (IZR a * IZR b * (IZR c * IZR d) * (s * s * (s * s))) by ring.
  replace (IZR e * s * (IZR f * s) * (IZR g * s * (IZR h * s)))
    with (IZR e * IZR f * (IZR g * IZR h) * (s * s * (s * s))) by ring.
  apply Rmult_lt_compat_r; assumption.
Qed.

(** The fixed-point check is sound for the normalised kernel. *)
Lemma between_check_sound sigma c x y lo hi :
  2 * (sigma * sigma) * INR c = 8 ->
  between_check c x y lo hi = true ->
  fx lo < cygak.normalized (scalar_series x) (scalar_series y) sigma < fx hi.
Proof.
  intros Hc Hb. unfold between_check in Hb.
  apply andb_prop in Hb as [Hb H4]. apply andb_prop in Hb as [Hb H3].
  apply andb_prop in Hb as [H1 H2].
  apply Z.leb_le in H1. apply Z.ltb_lt in H2, H3, H4.
  apply fx_mult4_lt in H3, H4. rewrite fx_scale in H3, H4.
  unfold cygak.normalized. rewrite !gak_Kval.
  fold (Kfun sigma (scalar_series x) (scalar_series y)).
  fold (Kfun sigma (scalar_series x) (scalar_series x)).
  fold (Kfun sigma (scalar_series y) (scalar_series y)).
  destruct (Kfun_scalar_between sigma c x y Hc) as [[Lxy0 Lxy] [Kxy Hxy]].
  destruct (Kfun_scalar_between sigma c x x Hc) as [[Lxx0 Lxx] [Kxx Hxx]].
  destruct (Kfun_scalar_between sigma c y y Hc) as [[Lyy0 Lyy] [Kyy Hyy]].
  apply fx_nonneg in Lxy0, Lxx0, Lyy0.
  pose proof (fx_nonneg lo H1) as Hlo.
  assert (Hhi : 0 < fx hi).
  { unfold fx. apply Rdiv_lt_0_compat; [apply IZR_lt, H2|apply scale_pos]. }
  set (Kab := Kfun sigma (scalar_series x) (scalar_series y)) in *.
  set (Kaa := Kfun sigma (scalar_series x) (scalar_series x)) in *.
  set (Kbb := Kfun sigma (scalar_series y) (scalar_series y)) in *.
  apply normalized_between; try assumption.
  - apply Rmult_le_pos; assumption.
  - apply Rle_lt_trans
      with (fx lo * fx lo
            * (fx (fx_grid mul_up (weights kappa_hi c x x) (length x) (length x))
               * fx (fx_grid mul_up (weights kappa_hi c y y) (length y)
                       (length y)))).
    + apply Rmult_le_compat_l; [apply Rmult_le_pos; assumption|].
      apply Rmult_le_compat; assumption.
    + apply Rlt_le_trans with (1 := H3). rewrite Rmult_1_r, Rmult_1_r.
      apply Rmult_le_compat; assumption.
  - apply Rle_lt_trans
      with (fx (fx_grid mul_up (weights kappa_hi c x y) (length x) (length y))
            * fx (fx_grid mul_up (weights kappa_hi c x y) (length x)
                    (length y))).
    + apply Rmult_le_compat; assumption.
    + rewrite Rmult_1_r, Rmult_1_r in H4. apply Rlt_le_trans with (1 := H4).
      apply Rmult_le_compat_l; [apply Rmult_le_pos; lra|].
      apply Rmult_le_compat; assumption.
Qed.

(** The examples in the docstrings of [gak] and [cdist_gak]:
    [gak([1, 2, 3], [1., 2., 2., 3.], sigma=2.)] is 0.839...,
    [gak([1, 2, 3], [1., 2., 2., 3., 4.])] is 0.273... and
    [cdist_gak([[1, 2, 2, 3], [1., 2., 3., 4.]], sigma=2.)] is
    [[1, 0.656...], [0.656..., 1]]. *)
Theorem gak_docstring_examples :
  (exists v, gak (Raw1 [1; 2; 3]) (Raw1 [1; 2; 2; 3]) 2 = Ok v /\
             0.83933 < v < 0.83934) /\
  (exists v, gak (Raw1 [1; 2; 3]) (Raw1 [1; 2; 2; 3; 4]) 1 = Ok v /\
             0.27338 < v < 0.27339) /\
  (exists v, cdist_gak [Raw1 [1; 2; 2; 3]; Raw1 [1; 2; 3; 4]] None 2
             = Ok [[1; v]; [v; 1]] /\
             0.65629 < v < 0.65630).
Proof.
  split; [|split].
  - exists (cygak.normalized (scalar_series [1; 2; 3]%Z)
              (scalar_series [1; 2; 2; 3]%Z) 2).
    split.
    + unfold gak, cygak.normalized_gak.
      destruct (Rle_dec 2 0); [lra|reflexivity].
    + pose proof (between_check_sound 2 1 [1; 2; 3]%Z [1; 2; 2; 3]%Z
                    839330000000000 839340000000000) as H.
      unfold fx, scale in H. simpl INR in H.
      destruct H as [H1 H2]; [lra|vm_compute; reflexivity|]. lra.
  - exists (cygak.normalized (scalar_series [1; 2; 3]%Z)
              (scalar_series [1; 2; 2; 3; 4]%Z) 1).
    split.
    + unfold gak, cygak.normalized_gak.
      destruct (Rle_dec 1 0); [lra|reflexivity].
    + pose proof (between_check_sound 1 4 [1; 2; 3]%Z [1; 2; 2; 3; 4]%Z
                    273380000000000 273390000000000) as H.
      unfold fx, scale in H. simpl INR in H.
      destruct H as [H1 H2]; [lra|vm_compute; reflexivity|]. lra.
  - exists (cygak.normalized (scalar_series [1; 2; 2; 3]%Z)
              (scalar_series [1; 2; 3; 4]%Z) 2).
    split.
    + unfold cdist_gak, metrics.cdist_gak, cygak.cdist_gak.
      destruct (Rle_dec 2 0); [lra|reflexivity].
    + pose proof (between_check_sound 2 1 [1; 2; 2; 3]%Z [1; 2; 3; 4]%Z
                    656290000000000 656300000000000) as H.
      unfold fx, scale in H. simpl INR in H.
      destruct H as [H1 H2]; [lra|vm_compute; reflexivity|]. lra.
Qed.
